(** * VFC2Excel: the vCard parser of [app.py] ([class VCFParser])

    A shallow embedding of the parsing core of [src/app.py] and the
    properties its specification states about it.

    Text is modelled with the Standard Library's [string]: one [ascii] per
    character, the alphabet being the 256 code points of Latin-1.  On this
    alphabet [str.strip], [str.lower], the regular-expression classes [\d]
    and [\s] and the case-insensitive matching of ASCII patterns are those
    of Python.  So are [str.upper] and [str.title], the sharp s (two
    letters in upper case) included, but for two code points whose upper
    case lies outside the alphabet (U+00B5, U+00FF): those are left as they
    are.

    A Python [dict] is an insertion-ordered association list ([dict_set]
    keeps the position of a key that is already present); the [set]
    [self.all_fields] is a duplicate-free list whose order stands for the
    iteration order of the set. *)

From Stdlib Require Import Bool Arith List Lia NArith ZArith.
From Stdlib Require Import Sorting.Sorted Sorting.Permutation.
From Stdlib Require Import Strings.Ascii Strings.String Strings.Byte.
Import ListNotations.

Local Open Scope string_scope.
Local Open Scope list_scope.

(* ================================================================== *)
(** ** Python string primitives *)
(* ================================================================== *)

Module PyStr.

Definition TAB : ascii := "009"%char.
Definition LF : ascii := "010"%char.
Definition CR : ascii := "013"%char.

(** [str.isspace] on one character, which is also the class [\s]: TAB,
    LF, VT, FF, CR, the four separators FS, GS, RS, US, the blank, NEL
    (U+0085) and the no-break space (U+00A0). *)
Definition is_space (c : ascii) : bool :=
  let n := nat_of_ascii c in
  (((9 <=? n) && (n <=? 13)) || ((28 <=? n) && (n <=? 32))
   || (n =? 133) || (n =? 160))%nat.

Definition is_digit (c : ascii) : bool :=
  let n := nat_of_ascii c in ((48 <=? n) && (n <=? 57))%nat.

(** The upper-case letters: A to Z, and U+00C0 to U+00DE but for the
    multiplication sign. *)
Definition is_upper (c : ascii) : bool :=
  let n := nat_of_ascii c in
  (((65 <=? n) && (n <=? 90))
   || ((192 <=? n) && (n <=? 222) && negb (n =? 215)))%nat.

(** The lower-case letters that have their upper case 32 places below: a
    to z, and U+00E0 to U+00FE but for the division sign. *)
Definition has_upper_case (c : ascii) : bool :=
  let n := nat_of_ascii c in
  (((97 <=? n) && (n <=? 122))
   || ((224 <=? n) && (n <=? 254) && negb (n =? 247)))%nat.

(** The sharp s, U+00DF. *)
Definition sharp_s : ascii := "223"%char.

(** The lower-case characters: those above, the sharp s, U+00FF, and the
    three signs U+00AA, U+00B5, U+00BA. *)
Definition is_lower (c : ascii) : bool :=
  let n := nat_of_ascii c in
  (has_upper_case c || (n =? 223) || (n =? 255)
   || (n =? 170) || (n =? 181) || (n =? 186))%nat.

Definition is_cased (c : ascii) : bool := is_upper c || is_lower c.

(** The one-character upper and lower case.  The upper case of U+00B5 and
    of U+00FF is not among the 256 code points: they are left as they
    are. *)
Definition upper_char (c : ascii) : ascii :=
  if has_upper_case c then ascii_of_nat (nat_of_ascii c - 32) else c.

Definition lower_char (c : ascii) : ascii :=
  if is_upper c then ascii_of_nat (nat_of_ascii c + 32) else c.

(** [c.upper()] and [c.title()] for one character: the sharp s becomes two
    letters. *)
Definition upper_str (c : ascii) : string :=
  if Ascii.eqb c sharp_s then "SS" else String (upper_char c) EmptyString.

Definition title_str (c : ascii) : string :=
  if Ascii.eqb c sharp_s then "Ss" else String (upper_char c) EmptyString.

Fixpoint map_chars (f : ascii -> ascii) (s : string) : string :=
  match s with
  | EmptyString => EmptyString
  | String c s' => String (f c) (map_chars f s')
  end.

(** [s.upper()] and [s.lower()] *)
Fixpoint upper (s : string) : string :=
  match s with
  | EmptyString => EmptyString
  | String c s' => (upper_str c ++ upper s')%string
  end.

Definition lower (s : string) : string := map_chars lower_char s.

(** The truth value of a string: [if s:] *)
Definition truthy (s : string) : bool :=
  match s with EmptyString => false | String _ _ => true end.

(** [s.lstrip()], [s.rstrip()], [s.strip()] *)
Fixpoint lstrip (s : string) : string :=
  match s with
  | EmptyString => EmptyString
  | String c s' => if is_space c then lstrip s' else s
  end.

Fixpoint rstrip (s : string) : string :=
  match s with
  | EmptyString => EmptyString
  | String c s' =>
      match rstrip s' with
      | EmptyString => if is_space c then EmptyString else String c EmptyString
      | r => String c r
      end
  end.

Definition strip (s : string) : string := rstrip (lstrip s).

(** [s.startswith(p)] *)
Fixpoint startswith (p s : string) : bool :=
  match p, s with
  | EmptyString, _ => true
  | String a p', String b s' => Ascii.eqb a b && startswith p' s'
  | String _ _, EmptyString => false
  end.

(** [s[1:]] *)
Definition tail1 (s : string) : string :=
  match s with EmptyString => EmptyString | String _ s' => s' end.

(** [s[n:]] *)
Fixpoint drop (n : nat) (s : string) : string :=
  match n, s with
  | S n', String _ s' => drop n' s'
  | _, _ => s
  end.

(** [s[:n]] *)
Fixpoint take (n : nat) (s : string) : string :=
  match n, s with
  | S n', String c s' => String c (take n' s')
  | _, _ => EmptyString
  end.

(** [c in s] for a one-character string [c] *)
Fixpoint has_char (c : ascii) (s : string) : bool :=
  match s with
  | EmptyString => false
  | String d s' => Ascii.eqb c d || has_char c s'
  end.

(** [p in s] for strings: [p] occurs somewhere in [s] *)
Fixpoint contains (p s : string) : bool :=
  startswith p s ||
  match s with
  | EmptyString => false
  | String _ s' => contains p s'
  end.

(** [s.split(sep)] for a one-character separator: the pieces between the
    separators, never an empty list. *)
Fixpoint split (sep : ascii) (s : string) : list string :=
  match s with
  | EmptyString => [EmptyString]
  | String c s' =>
      if Ascii.eqb c sep then EmptyString :: split sep s'
      else match split sep s' with
           | [] => [String c EmptyString]
           | p :: ps => String c p :: ps
           end
  end.

(** [s.split(sep, 1)]: at most one split, at the first separator. *)
Fixpoint split1 (sep : ascii) (s : string) : list string :=
  match s with
  | EmptyString => [EmptyString]
  | String c s' =>
      if Ascii.eqb c sep then [EmptyString; s']
      else match split1 sep s' with
           | [] => [String c EmptyString]
           | p :: ps => String c p :: ps
           end
  end.

(** [s.replace(a, b)] for one-character [a] and [b] *)
Definition replace_char (a b : ascii) (s : string) : string :=
  map_chars (fun c => if Ascii.eqb c a then b else c) s.

(** [s.replace(a1 a2, r)] for a two-character pattern: occurrences are
    replaced from the left and do not overlap. *)
Fixpoint replace2 (a1 a2 : ascii) (r : string) (s : string) : string :=
  match s with
  | EmptyString => EmptyString
  | String c s' =>
      match s' with
      | String d s'' =>
          if Ascii.eqb c a1 && Ascii.eqb d a2
          then r ++ replace2 a1 a2 r s''
          else String c (replace2 a1 a2 r s')
      | EmptyString => String c EmptyString
      end
  end%string.

(** [s.replace(CR LF, LF).replace(CR, LF)] is spelled with the two functions
    above.  [s.title()]: a cased character is upper-cased when the character
    before it is not cased, and lower-cased otherwise. *)
Fixpoint title_from (previous_is_cased : bool) (s : string) : string :=
  match s with
  | EmptyString => EmptyString
  | String c s' =>
      ((if previous_is_cased then String (lower_char c) EmptyString
        else title_str c)
       ++ title_from (is_cased c) s')%string
  end.

Definition title (s : string) : string := title_from false s.

(** [re.sub] with a negated character class and an empty replacement:
    the characters of the class are kept. *)
Fixpoint keep_chars (keep : ascii -> bool) (s : string) : string :=
  match s with
  | EmptyString => EmptyString
  | String c s' =>
      if keep c then String c (keep_chars keep s') else keep_chars keep s'
  end.

(** [enumerate(l)] *)
Definition enumerate {A : Type} (l : list A) : list (nat * A) :=
  combine (seq 0 (List.length l)) l.

End PyStr.

Import PyStr.

(* ================================================================== *)
(** ** Data model: contact records and the field set *)
(* ================================================================== *)

(** A [dict] with string keys, in insertion order. *)
Definition dict (V : Type) : Type := list (string * V).

(** [d[k] = v]: a key that is present keeps its place. *)
Fixpoint dict_set {V : Type} (k : string) (v : V) (d : dict V) : dict V :=
  match d with
  | [] => [(k, v)]
  | (k', v') :: d' =>
      if String.eqb k k' then (k, v) :: d' else (k', v') :: dict_set k v d'
  end.

(** [d.get(k)] *)
Fixpoint dict_get {V : Type} (k : string) (d : dict V) : option V :=
  match d with
  | [] => None
  | (k', v') :: d' => if String.eqb k k' then Some v' else dict_get k d'
  end.

Definition dict_keys {V : Type} (d : dict V) : list string := map fst d.

(** A contact is a [dict] from field name to field value. *)
Definition contact : Type := dict string.

(** [self.all_fields], a [set] of field names. *)
Definition fieldset : Type := list string.

(** [f in fs] and [fs.add(f)] *)
Definition fs_mem (f : string) (fs : fieldset) : bool :=
  existsb (String.eqb f) fs.

Definition fs_add (f : string) (fs : fieldset) : fieldset :=
  if fs_mem f fs then fs else fs ++ [f].

(** The contact under construction together with [self.all_fields]: the two
    objects [_extract_field_data] mutates. *)
Definition parse_state : Type := (contact * fieldset)%type.

(** [contact[field] = value; self.all_fields.add(field)] *)
Definition put (field value : string) (st : parse_state) : parse_state :=
  (dict_set field value (fst st), fs_add field (snd st)).

(* ================================================================== *)
(** ** Type detection ([_get_phone_type] and its siblings) *)
(* ================================================================== *)

Definition phone_type_mapping : dict string :=
  [("HOME", "Home"); ("WORK", "Work"); ("CELL", "Mobile");
   ("MOBILE", "Mobile"); ("FAX", "Fax"); ("PAGER", "Pager");
   ("VOICE", "Voice"); ("MAIN", "Main")].

Definition email_type_mapping : dict string :=
  [("HOME", "Home"); ("WORK", "Work"); ("INTERNET", "Internet")].

Definition address_type_mapping : dict string :=
  [("HOME", "Home"); ("WORK", "Work")].

(** The loop shared by the three functions:
    [for param in parameters: if param in type_mapping: return type_mapping[param]],
    then [return default]. *)
Fixpoint first_mapped (type_mapping : dict string) (default : string)
                      (parameters : list string) : string :=
  match parameters with
  | [] => default
  | param :: rest =>
      match dict_get param type_mapping with
      | Some t => t
      | None => first_mapped type_mapping default rest
      end
  end.

Definition _get_phone_type (parameters : list string) : string :=
  first_mapped phone_type_mapping "Phone" parameters.

Definition _get_email_type (parameters : list string) : string :=
  first_mapped email_type_mapping "Email" parameters.

Definition _get_address_type (parameters : list string) : string :=
  first_mapped address_type_mapping "Address" parameters.

(* ================================================================== *)
(** ** Date normalizer ([_format_date]) *)
(* ================================================================== *)

(** [_format_date] calls [datetime.strptime] and [date.strftime] of the
    Python standard library.  [strptime] turns the format into a regular
    expression, one group per directive,
      [%Y] as [\d\d\d\d],
      [%m] as [1[0-2]|0[1-9]|[1-9]],
      [%d] as [3[0-1]|[1-2]\d|0[1-9]|[1-9]| [1-9]],
    matches it at the start of the string, rejects a match that leaves
    characters unconverted, and builds a date from the groups, which rejects
    year 0 and a day the month does not have.  The alternatives of a group
    are tried from the left and the matcher backtracks into them, so a group
    is modelled by the list of its matches in the order the matcher tries
    them. *)
Module Date.

Record date : Type := mkdate { year : N; month : N; day : N }.

Inductive directive : Type := Dir_Y | Dir_m | Dir_d.

Inductive item : Type :=
| Dir (d : directive)
| Lit (c : ascii).

Definition format : Type := list item.

(** ['%Y%m%d'], ['%Y-%m-%d'], ['%m/%d/%Y'], ['%d/%m/%Y'] *)
Definition fmt_compact : format := [Dir Dir_Y; Dir Dir_m; Dir Dir_d].
Definition fmt_iso : format :=
  [Dir Dir_Y; Lit "-"; Dir Dir_m; Lit "-"; Dir Dir_d].
Definition fmt_mdy : format :=
  [Dir Dir_m; Lit "/"; Dir Dir_d; Lit "/"; Dir Dir_Y].
Definition fmt_dmy : format :=
  [Dir Dir_d; Lit "/"; Dir Dir_m; Lit "/"; Dir Dir_Y].

Definition formats : list format := [fmt_compact; fmt_iso; fmt_mdy; fmt_dmy].

Definition digit_val (c : ascii) : N := (N_of_ascii c - 48)%N.
Definition digit_char (n : N) : ascii := ascii_of_N (48 + n)%N.

Definition in_range (lo hi : ascii) (c : ascii) : bool :=
  ((nat_of_ascii lo <=? nat_of_ascii c) &&
   (nat_of_ascii c <=? nat_of_ascii hi))%nat.

Definition is_char (a : ascii) (c : ascii) : bool := Ascii.eqb a c.

(** One alternative of a group: one or two character classes in a row.  The
    value is what [int] makes of the matched text. *)
Definition one (p : ascii -> bool) (s : string) : list (N * string) :=
  match s with
  | String a r => if p a then [(digit_val a, r)] else []
  | _ => []
  end.

Definition two (p1 p2 : ascii -> bool) (s : string) : list (N * string) :=
  match s with
  | String a (String b r) =>
      if p1 a && p2 b
      then [((if is_digit a then 10 * digit_val a else 0) + digit_val b, r)%N]
      else []
  | _ => []
  end.

Definition four_digits (s : string) : list (N * string) :=
  match s with
  | String a (String b (String c (String d r))) =>
      if is_digit a && is_digit b && is_digit c && is_digit d
      then [(1000 * digit_val a + 100 * digit_val b
             + 10 * digit_val c + digit_val d, r)%N]
      else []
  | _ => []
  end.

(** The matches of a directive's group at the start of [s], in the order
    the matcher tries them, each with the text that follows it. *)
Definition group_matches (d : directive) (s : string) : list (N * string) :=
  match d with
  | Dir_Y => four_digits s
  | Dir_m =>
      two (is_char "1") (in_range "0" "2") s
      ++ two (is_char "0") (in_range "1" "9") s
      ++ one (in_range "1" "9") s
  | Dir_d =>
      two (is_char "3") (in_range "0" "1") s
      ++ two (in_range "1" "2") is_digit s
      ++ two (is_char "0") (in_range "1" "9") s
      ++ one (in_range "1" "9") s
      ++ two (is_char " ") (in_range "1" "9") s
  end.

Definition set_group (d : directive) (v : N) (acc : date) : date :=
  match d with
  | Dir_Y => mkdate v (month acc) (day acc)
  | Dir_m => mkdate (year acc) v (day acc)
  | Dir_d => mkdate (year acc) (month acc) v
  end.

(** All the ways the expression of [fmt] matches at the start of [s], in
    the order the backtracking matcher finds them. *)
Fixpoint regex_matches (fmt : format) (s : string) (acc : date)
  : list (date * string) :=
  match fmt with
  | [] => [(acc, s)]
  | Lit c :: fmt' =>
      match s with
      | String c' s' =>
          if Ascii.eqb c c' then regex_matches fmt' s' acc else []
      | EmptyString => []
      end
  | Dir d :: fmt' =>
      flat_map (fun vr => regex_matches fmt' (snd vr) (set_group d (fst vr) acc))
               (group_matches d s)
  end.

Definition is_leap (y : N) : bool :=
  ((y mod 4 =? 0) && (negb (y mod 100 =? 0) || (y mod 400 =? 0)))%N.

Definition days_in_month (y m : N) : N :=
  (match m with
   | 2 => if is_leap y then 29 else 28
   | 4 | 6 | 9 | 11 => 30
   | _ => 31
   end)%N.

(** What the [date] constructor accepts. *)
Definition valid_date (d : date) : bool :=
  ((1 <=? year d) && (year d <=? 9999)
   && (1 <=? month d) && (month d <=? 12)
   && (1 <=? day d) && (day d <=? days_in_month (year d) (month d)))%N.

(** [datetime.strptime(date_str, fmt)]; [None] stands for [ValueError]. *)
Definition strptime (date_str : string) (fmt : format) : option date :=
  match regex_matches fmt date_str (mkdate 1900 1 1)%N with
  | [] => None                                   (* does not match format *)
  | (d, rest) :: _ =>
      if truthy rest then None                   (* unconverted data remains *)
      else if valid_date d then Some d
      else None                                  (* out of range *)
  end.

Definition pad2 (n : N) : string :=
  String (digit_char (n / 10 mod 10)%N) (String (digit_char (n mod 10)%N) "").

Definition pad4 (n : N) : string :=
  String (digit_char (n / 1000 mod 10)%N)
    (String (digit_char (n / 100 mod 10)%N) (pad2 n)).

(** The decimal digits of a number below 10000 without its leading
    zeros. *)
Fixpoint drop_zeros (s : string) : string :=
  match s with
  | String c s' =>
      if Ascii.eqb c "0"
      then match s' with EmptyString => s | String _ _ => drop_zeros s' end
      else s
  | EmptyString => EmptyString
  end.

(** What [%Y] prints.  The year has four digits in CPython from 3.13 on and
    wherever the C library pads it ([zero_pad_year = true]); before 3.13, on
    a C library that does not pad (glibc), a year below 1000 is printed
    without leading zeros ([zero_pad_year = false]). *)
Definition year_text (zero_pad_year : bool) (y : N) : string :=
  if zero_pad_year then pad4 y else drop_zeros (pad4 y).

(** [date_obj.strftime('%Y-%m-%d')] *)
Definition strftime (zero_pad_year : bool) (d : date) : string :=
  (year_text zero_pad_year (year d)
   ++ "-" ++ pad2 (month d) ++ "-" ++ pad2 (day d))%string.

(** The loop of [_format_date]: the first format that parses wins; when
    none does the string is returned as it is. *)
Fixpoint try_formats (zero_pad_year : bool) (fmts : list format)
    (date_str : string) : string :=
  match fmts with
  | [] => date_str
  | fmt :: rest =>
      match strptime date_str fmt with
      | Some date_obj => strftime zero_pad_year date_obj
      | None => try_formats zero_pad_year rest date_str
      end
  end.

(** [_format_date] under either convention for [%Y]. *)
Definition format_date (zero_pad_year : bool) (date_str : string) : string :=
  try_formats zero_pad_year formats date_str.

End Date.

(** [_format_date(date_str)], the year printed the way CPython 3.11 on
    glibc prints it: without padding. *)
Definition _format_date (date_str : string) : string :=
  Date.format_date false date_str.

(* ================================================================== *)
(** ** Field mapper ([_extract_field_data]) *)
(* ================================================================== *)

Definition name_fields : list string :=
  ["Last Name"; "First Name"; "Middle Name"; "Name Prefix"; "Name Suffix"].

Definition addr_fields : list string :=
  ["PO Box"; "Extended Address"; "Street Address"; "City"; "State/Province";
   "Postal Code"; "Country"].

(** [for i, field in enumerate(fields):
       if i < len(parts) and parts[i]: contact[name_of(field)] = parts[i]; ...] *)
Definition put_positional (fields parts : list string)
    (name_of : string -> string) (st : parse_state) : parse_state :=
  fold_left
    (fun st (ifield : nat * string) =>
       match nth_error parts (fst ifield) with
       | Some part =>
           if truthy part then put (name_of (snd ifield)) part st else st
       | None => st
       end)
    (enumerate fields) st.

(** The characters [re.sub(r'[^\d\+\-\(\)\s]', '', value)] keeps. *)
Definition phone_char (c : ascii) : bool :=
  is_digit c || Ascii.eqb c "+" || Ascii.eqb c "-"
  || Ascii.eqb c "(" || Ascii.eqb c ")" || is_space c.

(** [f'{base} ({type})' if type != default else base] *)
Definition typed_name (base type default : string) : string :=
  if String.eqb type default then base
  else (base ++ " (" ++ type ++ ")")%string.

Definition _extract_field_data (st : parse_state)
    (property_name value : string) (parameters : list string) : parse_state :=
  if String.eqb property_name "N" then
    let name_parts := map strip (split ";" value) in
    put_positional name_fields name_parts (fun field => field) st
  else if String.eqb property_name "FN" then
    put "Full Name" value st
  else if String.eqb property_name "TEL" then
    let phone_type := _get_phone_type parameters in
    let field_name := typed_name "Phone" phone_type "Phone" in
    let clean_phone := keep_chars phone_char value in
    put field_name clean_phone st
  else if String.eqb property_name "EMAIL" then
    let email_type := _get_email_type parameters in
    let field_name := typed_name "Email" email_type "Email" in
    put field_name (lower value) st
  else if String.eqb property_name "ADR" then
    let addr_parts := map strip (split ";" value) in
    let addr_type := _get_address_type parameters in
    put_positional addr_fields addr_parts
      (fun field => typed_name field addr_type "Address") st
  else if String.eqb property_name "ORG" then
    let org_parts := map strip (split ";" value) in
    let st := put "Organization" (hd "" org_parts) st in
    match org_parts with
    | _ :: dept :: _ => if truthy dept then put "Department" dept st else st
    | _ => st
    end
  else if String.eqb property_name "TITLE" then
    put "Job Title" value st
  else if String.eqb property_name "BDAY" then
    let birthday := _format_date value in
    put "Birthday" birthday st
  else if String.eqb property_name "NOTE" then
    put "Notes" value st
  else if String.eqb property_name "URL" then
    put "Website" value st
  else if String.eqb property_name "NICKNAME" then
    put "Nickname" value st
  else if String.eqb property_name "CATEGORIES" then
    put "Categories" value st
  else if startswith "X-" property_name then
    let field_name :=
      title (replace_char "-" " " (replace2 "X" "-" "" property_name)) in
    put field_name value st
  else
    let field_name := title (replace_char "-" " " property_name) in
    put field_name value st.

(* ================================================================== *)
(** ** Line unfolder and property parser ([parse_vcard]) *)
(* ================================================================== *)

(** One round of the loop that handles line continuations; the state is
    [(processed_lines, current_line)]. *)
Definition unfold_step (acc : list string * string) (line : string)
  : list string * string :=
  let line := strip line in
  if startswith " " line || startswith (String TAB "") line then
    (fst acc, (snd acc ++ tail1 line)%string)
  else
    ((if truthy (snd acc) then fst acc ++ [snd acc] else fst acc), line).

(** [processed_lines] once the loop and the final flush are done. *)
Definition unfold_lines (lines : list string) : list string :=
  let acc := fold_left unfold_step lines ([], "") in
  if truthy (snd acc) then fst acc ++ [snd acc] else fst acc.

(** How a call ends: it returns, or it raises an exception. *)
Inductive outcome : Type := Normal | Exception.

(** [parse_vcard] over any behaviour of the field mapper it calls: the
    mapper may write to the contact and to the field set and then return or
    raise.  [parse_vcard] itself is the instance at [_extract_field_data]. *)
Section LineRecovery.

Variable field_mapper :
  parse_state -> string -> string -> list string -> parse_state * outcome.

(** The body of the [try] of one line. *)
Definition line_body (st : parse_state) (line : string)
  : parse_state * outcome :=
  match split1 ":" line with
  | [property_part; value] =>
      let value := strip value in
      if negb (truthy value) then (st, Normal)            (* continue *)
      else
        let property_name :=
          if has_char ";" property_part
          then upper (hd "" (split ";" property_part))
          else upper property_part in
        let parameters :=
          if has_char ";" property_part
          then map upper (tl (split ";" property_part))
          else [] in
        field_mapper st property_name value parameters
  | _ => (st, Exception)                     (* unpacking raises ValueError *)
  end.

(** One round of [for line in processed_lines], the
    [except Exception: continue] included. *)
Definition process_line (st : parse_state) (line : string) : parse_state :=
  if negb (truthy line)
     || startswith "BEGIN:VCARD" (upper line)
     || startswith "END:VCARD" (upper line)
  then st
  else if negb (has_char ":" line) then st
  else
    match line_body st line with
    | (st', Normal) => st'
    | (st', Exception) => st'                (* except Exception: continue *)
    end.

Definition process_lines (st : parse_state) (lines : list string)
  : parse_state :=
  fold_left process_line lines st.

(** [parse_vcard(vcard_text)] from the field set [fields]: the contact, or
    [None], and the field set afterwards. *)
Definition parse_vcard_with (fields : fieldset) (vcard_text : string)
  : option contact * fieldset :=
  let lines := split LF (strip vcard_text) in
  let processed_lines := unfold_lines lines in
  let st := process_lines ([], fields) processed_lines in
  ((match fst st with [] => None | _ :: _ => Some (fst st) end), snd st).

End LineRecovery.

(** The field mapper of the code: [_extract_field_data], which returns. *)
Definition code_mapper (st : parse_state) (property_name value : string)
    (parameters : list string) : parse_state * outcome :=
  (_extract_field_data st property_name value parameters, Normal).

Definition parse_vcard : fieldset -> string -> option contact * fieldset :=
  parse_vcard_with code_mapper.

(* ================================================================== *)
(** ** vCard splitter and the block loop ([parse]) *)
(* ================================================================== *)

Definition nl : string := String LF "".

(** [content.replace(CR LF, LF).replace(CR, LF)] *)
Definition normalize_newlines (content : string) : string :=
  replace_char CR LF (replace2 CR LF nl content).

(** The lazy [.*?END:VCARD] under [re.DOTALL | re.IGNORECASE]: the text up
    to and including the first [END:VCARD], and what follows it. *)
Fixpoint find_end (s : string) : option (string * string) :=
  if startswith "END:VCARD" (upper s) then Some (take 9 s, drop 9 s)
  else
    match s with
    | EmptyString => None
    | String c s' =>
        match find_end s' with
        | Some (m, rest) => Some (String c m, rest)
        | None => None
        end
    end.

(** [re.findall(r'BEGIN:VCARD.*?END:VCARD', s, re.DOTALL | re.IGNORECASE)]:
    the matches from left to right, the search resuming after each match.
    Every round consumes at least one character, so [length s] rounds and
    one more are enough. *)
Fixpoint findall_from (fuel : nat) (s : string) : list string :=
  match fuel with
  | O => []
  | S fuel' =>
      let next :=
        match s with
        | EmptyString => []
        | String _ s' => findall_from fuel' s'
        end in
      if startswith "BEGIN:VCARD" (upper s) then
        match find_end (drop 11 s) with
        | Some (m, rest) => (take 11 s ++ m)%string :: findall_from fuel' rest
        | None => next
        end
      else next
  end.

Definition findall_vcards (s : string) : list string :=
  findall_from (S (String.length s)) s.

(** The parser object: [self.contacts] and [self.all_fields]. *)
Record parser : Type := mkparser {
  contacts : list contact;
  all_fields : fieldset
}.

(** How a call that yields a value ends. *)
Inductive attempt (A : Type) : Type :=
| Returns (a : A)
| Raises.
Arguments Returns {A} a.
Arguments Raises {A}.

(** The loop of [parse] over any behaviour of the block parser it calls:
    the block parser may add to the field set and then return a contact,
    return [None], or raise. *)
Section BlockRecovery.

Variable block_parser :
  fieldset -> string -> attempt (option contact) * fieldset.

(** One round of [for i, vcard in enumerate(vcards)]. *)
Definition parse_block (p : parser) (vcard : string) : parser :=
  match block_parser (all_fields p) vcard with
  | (Returns (Some (f :: c)), fields) =>              (* if contact: *)
      mkparser (contacts p ++ [f :: c]) fields
  | (Returns _, fields) => mkparser (contacts p) fields
  | (Raises, fields) =>                     (* except Exception: continue *)
      mkparser (contacts p) fields
  end.

Definition parse_blocks_with (p : parser) (vcards : list string) : parser :=
  fold_left parse_block vcards p.

End BlockRecovery.

Definition parse_blocks : parser -> list string -> parser :=
  parse_blocks_with
    (fun fields vcard =>
       (Returns (fst (parse_vcard fields vcard)),
        snd (parse_vcard fields vcard))).

(** [parse] once the file is decoded: the parser after the loop;
    [self.contacts] is what [parse] returns. *)
Definition parse_content (content : string) : parser :=
  let content := normalize_newlines content in
  let vcards := findall_vcards content in
  parse_blocks (mkparser [] []) vcards.

(* ================================================================== *)
(** ** Field aggregator ([get_field_suggestions]) *)
(* ================================================================== *)

(** [any(keyword in f.lower() for keyword in keywords)] *)
Definition matches_any (keywords : list string) (f : string) : bool :=
  existsb (fun keyword => contains keyword (lower f)) keywords.

(** The five keyword groups, in the order of the [dict] literal. *)
Definition keyword_groups : list (string * list string) :=
  [("Name Fields", ["name"; "nickname"]);
   ("Contact Fields", ["phone"; "email"; "website"]);
   ("Address Fields",
      ["address"; "street"; "city"; "state"; "postal"; "country"]);
   ("Work Fields", ["organization"; "title"; "job"; "department"; "work"]);
   ("Personal Fields", ["birthday"; "anniversary"; "note"; "categories"])].

Definition get_field_suggestions (all_fields : fieldset)
  : dict (list string) :=
  let suggestions : dict (list string) :=
    map (fun g => (fst g, filter (matches_any (snd g)) all_fields))
        keyword_groups
    ++ [("Other Fields", [])] in
  let used_fields : fieldset :=
    fold_left (fun used fields => fold_left (fun u f => fs_add f u) fields used)
              (map snd suggestions) [] in
  let suggestions :=
    dict_set "Other Fields"
      (filter (fun f => negb (fs_mem f used_fields)) all_fields) suggestions in
  filter (fun kv => match snd kv with [] => false | _ :: _ => true end)
         suggestions.

(* ================================================================== *)
(** ** Decoder (the encoding loop of [parse]) *)
(* ================================================================== *)

(** The file is a list of bytes; decoded text is the list of its code
    points.  [None] stands for [UnicodeDecodeError]. *)
Module Decoder.

Local Open Scope N_scope.

Definition text : Type := list N.

Inductive encoding : Type :=
| utf_8 | utf_8_sig | latin1 | cp1252 | iso_8859_1.

(** [encodings = ['utf-8', 'utf-8-sig', 'latin1', 'cp1252', 'iso-8859-1']] *)
Definition encodings : list encoding :=
  [utf_8; utf_8_sig; latin1; cp1252; iso_8859_1].

Definition between (lo hi b : N) : bool := (lo <=? b) && (b <=? hi).

(** A continuation byte, [10xxxxxx]. *)
Definition cont (b : N) : bool := between 128 191 b.

Definition low6 (b : N) : N := N.land b 63.

(** Strict UTF-8: no overlong forms, no surrogates, nothing above
    U+10FFFF. *)
Fixpoint decode_utf8 (bs : list N) : option text :=
  match bs with
  | [] => Some []
  | b0 :: r0 =>
      if b0 <? 128 then option_map (cons b0) (decode_utf8 r0)
      else
        match r0 with
        | [] => None
        | b1 :: r1 =>
            if between 194 223 b0 then
              if cont b1
              then option_map (cons (N.lor (N.shiftl (N.land b0 31) 6) (low6 b1)))
                              (decode_utf8 r1)
              else None
            else
              match r1 with
              | [] => None
              | b2 :: r2 =>
                  if between 224 239 b0 then
                    if between (if b0 =? 224 then 160 else 128)
                               (if b0 =? 237 then 159 else 191) b1
                       && cont b2
                    then option_map
                           (cons (N.lor (N.shiftl (N.land b0 15) 12)
                                    (N.lor (N.shiftl (low6 b1) 6) (low6 b2))))
                           (decode_utf8 r2)
                    else None
                  else
                    match r2 with
                    | [] => None
                    | b3 :: r3 =>
                        if between 240 244 b0
                           && between (if b0 =? 240 then 144 else 128)
                                      (if b0 =? 244 then 143 else 191) b1
                           && cont b2 && cont b3
                        then option_map
                               (cons (N.lor (N.shiftl (N.land b0 7) 18)
                                        (N.lor (N.shiftl (low6 b1) 12)
                                           (N.lor (N.shiftl (low6 b2) 6)
                                                  (low6 b3)))))
                               (decode_utf8 r3)
                        else None
                    end
              end
        end
  end.

(** ['utf-8-sig'], as the reader of a file decodes: a leading byte-order
    mark is dropped; a file that is the first byte or the first two bytes
    of the mark, and no more, is held back as a mark not yet complete and
    reads as the empty text, without an error. *)
Definition decode_utf8_sig (bs : list N) : option text :=
  match bs with
  | 239 :: 187 :: 191 :: r => decode_utf8 r
  | [239] => Some []
  | [239; 187] => Some []
  | _ => decode_utf8 bs
  end.

(** Latin-1 maps every byte to the code point of the same number. *)
Definition decode_latin1 (bs : list N) : option text := Some bs.

(** Windows-1252 differs from Latin-1 on [0x80..0x9F]; five bytes of that
    range are undefined. *)
Definition cp1252_high : list N :=
  [0x20AC; 0; 0x201A; 0x0192; 0x201E; 0x2026; 0x2020; 0x2021;
   0x02C6; 0x2030; 0x0160; 0x2039; 0x0152; 0; 0x017D; 0;
   0; 0x2018; 0x2019; 0x201C; 0x201D; 0x2022; 0x2013; 0x2014;
   0x02DC; 0x2122; 0x0161; 0x203A; 0x0153; 0; 0x017E; 0x0178].

Definition cp1252_char (b : N) : option N :=
  if between 128 159 b then
    match nth_error cp1252_high (N.to_nat (b - 128)) with
    | Some 0 => None
    | Some c => Some c
    | None => None
    end
  else Some b.

Fixpoint decode_cp1252 (bs : list N) : option text :=
  match bs with
  | [] => Some []
  | b :: r =>
      match cp1252_char b, decode_cp1252 r with
      | Some c, Some t => Some (c :: t)
      | _, _ => None
      end
  end.

Definition decode (e : encoding) (bs : list N) : option text :=
  match e with
  | utf_8 => decode_utf8 bs
  | utf_8_sig => decode_utf8_sig bs
  | latin1 | iso_8859_1 => decode_latin1 bs
  | cp1252 => decode_cp1252 bs
  end.

(** Text mode translates CR LF and CR to LF when the file is read. *)
Fixpoint universal_newlines (t : text) : text :=
  match t with
  | [] => []
  | c :: r =>
      if c =? 13 then
        match r with
        | 10 :: r' => 10 :: universal_newlines r'
        | _ => 10 :: universal_newlines r
        end
      else c :: universal_newlines r
  end.

(** [open(self.file_path, 'r', encoding=encoding).read()] *)
Definition read_as (e : encoding) (file : list byte) : option text :=
  option_map universal_newlines (decode e (map Byte.to_N file)).

(** The loop over [encodings]: [content] once it ends, [None] when no
    encoding decoded the file. *)
Fixpoint first_decoding (es : list encoding) (file : list byte)
  : option text :=
  match es with
  | [] => None
  | e :: rest =>
      match read_as e file with
      | Some content => Some content                    (* break *)
      | None => first_decoding rest file                (* continue *)
      end
  end.

Inductive error : Type :=
| ValueError (msg : string).

(** The decoding stage of [parse]: the content, or the [ValueError] raised
    when [content is None]. *)
Definition read_content (file : list byte) : text + error :=
  match first_decoding encodings file with
  | Some content => inl content
  | None =>
      inr (ValueError
             "Could not decode the VCF file with any supported encoding")
  end.

End Decoder.

(* ================================================================== *)
(** ** The callers: field list, file gate, export rows *)
(* ================================================================== *)

(** [sorted(l)] on strings: Python orders strings by code point, a proper
    prefix before the longer string, which is [String.leb].  The sort is
    written as an insertion sort that keeps equal elements in their order,
    as [sorted] does. *)
Fixpoint insert_sorted (x : string) (l : list string) : list string :=
  match l with
  | [] => [x]
  | y :: l' => if String.leb y x then y :: insert_sorted x l' else x :: l
  end.

Definition sorted (l : list string) : list string :=
  fold_left (fun acc x => insert_sorted x acc) l [].

(** [get_all_fields]: [sorted(list(self.all_fields))] *)
Definition get_all_fields (p : parser) : list string :=
  sorted (all_fields p).

(** [s.rsplit(sep, 1)]: at most one split, at the last separator. *)
Fixpoint rsplit1 (sep : ascii) (s : string) : list string :=
  match s with
  | EmptyString => [EmptyString]
  | String c s' =>
      match rsplit1 sep s' with
      | [h; t] => [String c h; t]
      | _ => if Ascii.eqb c sep then [EmptyString; s'] else [String c s']
      end
  end.

(** [allowed_file(filename)]; [None] stands for the [IndexError] of the
    subscript [[1]]. *)
Definition allowed_file (filename : string) : option bool :=
  if has_char "." filename then
    match nth_error (rsplit1 "." filename) 1 with
    | Some ext => Some (String.eqb (lower ext) "vcf")
    | None => None
    end
  else Some false.

(** The inner loop of [convert_to_excel]:
    [for field in selected_fields:
       filtered_contact[field] = contact.get(field, '')] *)
Definition filtered_contact (selected_fields : list string) (c : contact)
  : contact :=
  fold_left
    (fun filtered field =>
       dict_set field
         (match dict_get field c with Some v => v | None => "" end)
         filtered)
    selected_fields [].

(** The rows handed to the data frame: the filtered contacts when fields
    are selected, the contacts themselves otherwise. *)
Definition export_rows (selected_fields : list string)
    (cs : list contact) : list contact :=
  match selected_fields with
  | [] => cs
  | _ :: _ => map (filtered_contact selected_fields) cs
  end.

(* ================================================================== *)
(** ** Vocabulary of the properties *)
(* ================================================================== *)

(** The final flush of the unfolding loop, applied to a loop state. *)
Definition flush (acc : list string * string) : list string :=
  if truthy (snd acc) then fst acc ++ [snd acc] else fst acc.

(** The keys of [type_mapping] in [_get_phone_type]. *)
Definition phone_keys : list string := dict_keys phone_type_mapping.

(** [param in type_mapping] *)
Definition is_phone_key (p : string) : bool :=
  existsb (String.eqb p) phone_keys.

(** The field name a TEL line derives from its parameters. *)
Definition phone_field_name (parameters : list string) : string :=
  typed_name "Phone" (_get_phone_type parameters) "Phone".

(** Every binding of [d0] is a binding of [d]. *)
Definition dict_le (d0 d : contact) : Prop :=
  forall f x, dict_get f d0 = Some x -> dict_get f d = Some x.

(** Field [f] is listed under group [g] in the result [r]. *)
Definition in_group (g f : string) (r : dict (list string)) : Prop :=
  exists members, In (g, members) r /\ In f members.

(** The filter of the final dict comprehension: [if v]. *)
Definition nonempty_group (kv : string * list string) : bool :=
  match snd kv with [] => false | _ :: _ => true end.

(** The fields some keyword group matches. *)
Definition keyword_matched (f : string) : bool :=
  existsb (fun g => matches_any (snd g) f) keyword_groups.


(** The record of a block, if it has one. *)
Definition record_of (vcard : string) : list contact :=
  match fst (parse_vcard [] vcard) with
  | Some c => [c]
  | None => []
  end.

(** The line gets past the two guards of the loop and into the [try]. *)
Definition reaches_try (line : string) : bool :=
  truthy line
  && negb (startswith "BEGIN:VCARD" (upper line))
  && negb (startswith "END:VCARD" (upper line))
  && has_char ":" line.

(** The line leaves the contact and the field set as they are: a guard
    skips it, its value is empty, or the mapper raises before it writes. *)
Definition contributes_nothing
    (mapper : parse_state -> string -> string -> list string
              -> parse_state * outcome) (line : string) : Prop :=
  forall st, process_line mapper st line = st.

(** A mapper that raises on the property [BAD] and maps every other
    property as the code does. *)
Definition faulty_mapper (st : parse_state) (property_name value : string)
    (parameters : list string) : parse_state * outcome :=
  if String.eqb property_name "BAD" then (st, Exception)
  else code_mapper st property_name value parameters.

(** A block parser that raises on the block [BOOM] and parses every other
    block as the code does. *)
Definition faulty_block_parser (fields : fieldset) (vcard : string)
  : attempt (option contact) * fieldset :=
  if String.eqb vcard "BOOM" then (Raises, fields)
  else (Returns (fst (parse_vcard fields vcard)),
        snd (parse_vcard fields vcard)).

(** A document of three blocks; the second has a line without colon and a
    line with an empty value, and nothing else. *)
Definition three_blocks : string :=
  ("BEGIN:VCARD" ++ nl ++ "FN:A" ++ nl ++ "END:VCARD" ++ nl
   ++ "BEGIN:VCARD" ++ nl ++ "garbage" ++ nl ++ "TEL:" ++ nl
   ++ "END:VCARD" ++ nl
   ++ "BEGIN:VCARD" ++ nl ++ "FN:B" ++ nl ++ "END:VCARD" ++ nl)%string.

(** The text [g0 b1 g1 ... bn gn] made of gaps and blocks in turn. *)
Fixpoint interleave (gaps blocks : list string) : string :=
  match gaps, blocks with
  | g :: gaps', b :: blocks' => (g ++ b ++ interleave gaps' blocks')%string
  | g :: _, [] => g
  | [], _ => EmptyString
  end.

(** The file is the first byte or the first two bytes of the byte-order
    mark [EF BB BF], and no more. *)
Definition cut_mark (bs : list N) : bool :=
  match bs with
  | [239%N] => true
  | [239%N; 187%N] => true
  | _ => false
  end.

(** All the field names that are keys of some record. *)
Definition record_keys (cs : list contact) : list string :=
  flat_map dict_keys cs.


(** From [st] to [st'] the same names [W] were added to the keys of the
    contact and to the field set. *)
Definition wrote (W : list string) (st st' : parse_state) : Prop :=
  (forall k, In k (dict_keys (fst st'))
             <-> In k (dict_keys (fst st)) \/ In k W)
  /\ (forall f, In f (snd st') <-> In f (snd st) \/ In f W).

(** The keys of the contact are distinct and so are the names of the field
    set. *)
Definition distinct_names (st : parse_state) : Prop :=
  NoDup (dict_keys (fst st)) /\ NoDup (snd st).

(** [a <= b] in the order of [sorted]. *)
Definition leb_rel (a b : string) : Prop := String.leb a b = true.

(** A block: [BEGIN:VCARD], a body, [END:VCARD], the two markers in any
    letter case. *)
Definition vcard_block (b : string) : Prop :=
  exists head body tail,
    b = (head ++ body ++ tail)%string
    /\ upper head = "BEGIN:VCARD" /\ upper tail = "END:VCARD".

(** An empty value sits only under Organization or under a phone field. *)
Definition empty_only_phone_or_org (c : contact) : Prop :=
  forall k, dict_get k c = Some "" ->
            k = "Organization" \/ startswith "Phone" k = true.

(** The keys of the [suggestions] dict, in the order of the literal. *)
Definition group_names : list string :=
  ["Name Fields"; "Contact Fields"; "Address Fields"; "Work Fields";
   "Personal Fields"; "Other Fields"].

(* ================================================================== *)
(** * Properties *)
(* ================================================================== *)

(** ** The line unfolder *)

Lemma lstrip_head (s : string) :
  lstrip s = "" \/
  exists c r, lstrip s = String c r /\ is_space c = false.
Proof.
  induction s as [|c s IH]; simpl.
  - now left.
  - destruct (is_space c) eqn:E.
    + exact IH.
    + right. now exists c, s.
Qed.

Lemma rstrip_head (c : ascii) (r : string) :
  is_space c = false -> exists r', rstrip (String c r) = String c r'.
Proof.
  intros E. simpl. destruct (rstrip r).
  - rewrite E. now exists "".
  - eexists. reflexivity.
Qed.

Lemma strip_head (s : string) :
  strip s = "" \/ exists c r, strip s = String c r /\ is_space c = false.
Proof.
  unfold strip. destruct (lstrip_head s) as [E | (c & r & E & Hc)]; rewrite E.
  - now left.
  - right. destruct (rstrip_head c r Hc) as [r' Hr]. now exists c, r'.
Qed.

(** A stripped line starts with neither a blank nor a tab. *)
Lemma strip_not_continuation (s : string) :
  startswith " " (strip s) || startswith (String TAB "") (strip s) = false.
Proof.
  destruct (strip_head s) as [E | (c & r & E & Hc)]; rewrite E.
  - reflexivity.
  - cbn [startswith].
    destruct (Ascii.eqb_spec " " c) as [<- | N1]; [discriminate Hc|].
    destruct (Ascii.eqb_spec TAB c) as [<- | N2]; [discriminate Hc|].
    reflexivity.
Qed.

Lemma unfold_step_flushes (acc : list string * string) (line : string) :
  unfold_step acc line =
  ((if truthy (snd acc) then fst acc ++ [snd acc] else fst acc), strip line).
Proof.
  unfold unfold_step. now rewrite strip_not_continuation.
Qed.

Lemma unfold_fold_flush (lines : list string) (acc : list string * string) :
  flush (fold_left unfold_step lines acc) =
  flush acc ++ filter truthy (map strip lines).
Proof.
  revert acc. induction lines as [|l lines IH]; intros acc; simpl.
  - now rewrite app_nil_r.
  - rewrite IH, unfold_step_flushes. unfold flush at 1. simpl.
    destruct (truthy (strip l)) eqn:E.
    + unfold flush. destruct (truthy (snd acc)); simpl;
        now rewrite <- ?app_assoc.
    + unfold flush. destruct (truthy (snd acc)); simpl;
        now rewrite ?app_nil_r.
Qed.

(** Every physical line is stripped before it is tested for a leading blank
    or tab, so the continuation branch never runs: the logical lines are
    the stripped physical lines that are not empty. *)
Lemma unfold_lines_strips (lines : list string) :
  unfold_lines lines = filter truthy (map strip lines).
Proof.
  change (unfold_lines lines) with (flush (fold_left unfold_step lines ([], ""))).
  now rewrite unfold_fold_flush.
Qed.

(** C1 (fails on the code).  The logical line [NOTE:HelloWorld], folded into
    [NOTE:Hello] and the continuation line [ World], is not reconstructed:
    the unfolder yields two logical lines, and the parsed contact holds
    [Notes = Hello], the continuation text being lost. *)
Theorem unfold_does_not_join_continuation :
  unfold_lines ["NOTE:Hello"; " World"] = ["NOTE:Hello"; "World"]
  /\ unfold_lines ["NOTE:Hello"; " World"] <> ["NOTE:HelloWorld"]
  /\ fst (parse_vcard []
            ("BEGIN:VCARD" ++ nl ++ "NOTE:Hello" ++ nl ++ " World" ++ nl
             ++ "END:VCARD")%string)
     = Some [("Notes", "Hello")].
Proof.
  repeat split; try reflexivity. discriminate.
Qed.

(** ** Type detection and the TEL mapping *)

Lemma dict_get_phone_key (p : string) :
  dict_get p phone_type_mapping <> None <-> is_phone_key p = true.
Proof.
  unfold is_phone_key, phone_keys, phone_type_mapping, dict_keys.
  cbn [dict_get map fst existsb].
  repeat (destruct (String.eqb p _); [split; [reflexivity | discriminate]|]).
  split; [congruence | discriminate].
Qed.

(** C3, as amended.  The phone type is decided by the first parameter, in
    the order the parameters stand on the line, that is a key of the type
    mapping (first input match); it is [Phone] when no parameter is a key.
    Hence [TEL;CELL;HOME] derives [Phone (Mobile)] and [TEL;HOME;CELL]
    derives [Phone (Home)]. *)
Theorem phone_type_first_input_match (parameters : list string) :
  _get_phone_type parameters =
    match find is_phone_key parameters with
    | Some p => match dict_get p phone_type_mapping with
                | Some t => t
                | None => "Phone"
                end
    | None => "Phone"
    end
  /\ (forall pre p rest,
        parameters = pre ++ p :: rest ->
        forallb (fun q => negb (is_phone_key q)) pre = true ->
        is_phone_key p = true ->
        dict_get p phone_type_mapping = Some (_get_phone_type parameters)).
Proof.
  split.
  - induction parameters as [|p ps IH]; [reflexivity|].
    unfold _get_phone_type in *. cbn [first_mapped find].
    destruct (dict_get p phone_type_mapping) eqn:E.
    + assert (K : is_phone_key p = true)
        by (apply dict_get_phone_key; congruence).
      now rewrite K, E.
    + assert (K : is_phone_key p = false).
      { destruct (is_phone_key p) eqn:K; [|reflexivity].
        apply dict_get_phone_key in K. congruence. }
      rewrite K. exact IH.
  - intros pre p rest -> Hpre Hp. unfold _get_phone_type.
    induction pre as [|q pre IH]; cbn [app first_mapped].
    + destruct (dict_get p phone_type_mapping) eqn:E; [reflexivity|].
      apply dict_get_phone_key in Hp. congruence.
    + cbn [forallb] in Hpre. apply andb_true_iff in Hpre as [Hq Hpre].
      destruct (dict_get q phone_type_mapping) eqn:E.
      * assert (K : is_phone_key q = true)
          by (apply dict_get_phone_key; congruence).
        rewrite K in Hq. discriminate.
      * now apply IH.
Qed.

(** C3 as stated fails: the two orders of the parameter set [{CELL, HOME}]
    derive different field names. *)
Lemma phone_type_depends_on_input_order :
  (forall q, In q ["CELL"; "HOME"] <-> In q ["HOME"; "CELL"])
  /\ phone_field_name ["CELL"; "HOME"] = "Phone (Mobile)"
  /\ phone_field_name ["HOME"; "CELL"] = "Phone (Home)"
  /\ phone_field_name ["CELL"; "HOME"] <> phone_field_name ["HOME"; "CELL"]
  /\ process_line code_mapper ([], []) "TEL;CELL;HOME:123"
     = ([("Phone (Mobile)", "123")], ["Phone (Mobile)"])
  /\ process_line code_mapper ([], []) "TEL;HOME;CELL:123"
     = ([("Phone (Home)", "123")], ["Phone (Home)"]).
Proof.
  repeat split; try reflexivity; try discriminate;
    cbn [In]; intuition auto.
Qed.

Lemma eq_sign_not_phone_key (p : string) :
  has_char "=" p = true -> dict_get p phone_type_mapping = None.
Proof.
  intros H. destruct (dict_get p phone_type_mapping) eqn:E; [|reflexivity].
  assert (K : is_phone_key p = true) by (apply dict_get_phone_key; congruence).
  unfold is_phone_key in K. apply existsb_exists in K as (k & Hk & Hpk).
  apply String.eqb_eq in Hpk. subst k.
  cbn in Hk. intuition (subst p; discriminate).
Qed.

Lemma keep_chars_filter (keep : ascii -> bool) (s : string) :
  list_ascii_of_string (keep_chars keep s)
  = filter keep (list_ascii_of_string s).
Proof.
  induction s as [|c s IH]; [reflexivity|].
  cbn [keep_chars list_ascii_of_string filter].
  destruct (keep c); cbn [list_ascii_of_string]; now rewrite IH.
Qed.

(** *** Upper-casing of the property part *)

Lemma append_assoc (a b c : string) :
  ((a ++ b) ++ c)%string = (a ++ (b ++ c))%string.
Proof. induction a as [|x a IH]; cbn [append]; congruence. Qed.

Lemma has_char_append (c : ascii) (p r : string) :
  has_char c (p ++ r)%string = has_char c p || has_char c r.
Proof.
  induction p as [|a p IH]; cbn [append has_char]; [reflexivity|].
  now rewrite IH, orb_assoc.
Qed.

Lemma upper_app (a b : string) :
  upper (a ++ b) = (upper a ++ upper b)%string.
Proof.
  induction a as [|c a IH]; cbn [append upper]; [reflexivity|].
  now rewrite IH, append_assoc.
Qed.

Lemma upper_str_idem (c : ascii) : upper (upper_str c) = upper_str c.
Proof. destruct c as [[] [] [] [] [] [] [] []]; reflexivity. Qed.

Lemma upper_str_colon (c : ascii) :
  has_char ":" (upper_str c) = Ascii.eqb ":" c.
Proof. destruct c as [[] [] [] [] [] [] [] []]; reflexivity. Qed.

Lemma upper_str_semicolon (c : ascii) :
  has_char ";" (upper_str c) = Ascii.eqb ";" c.
Proof. destruct c as [[] [] [] [] [] [] [] []]; reflexivity. Qed.

Lemma upper_idem (s : string) : upper (upper s) = upper s.
Proof.
  induction s as [|c s IH]; cbn [upper]; [reflexivity|].
  now rewrite upper_app, upper_str_idem, IH.
Qed.

Lemma has_char_upper (sep : ascii) (s : string) :
  (forall c, has_char sep (upper_str c) = Ascii.eqb sep c) ->
  has_char sep (upper s) = has_char sep s.
Proof.
  intros H. induction s as [|c s IH]; cbn [upper has_char]; [reflexivity|].
  now rewrite has_char_append, H, IH.
Qed.

Lemma split_cons (sep : ascii) (s : string) :
  split sep s = hd "" (split sep s) :: tl (split sep s).
Proof.
  destruct s as [|c s]; cbn [split]; [reflexivity|].
  destruct (Ascii.eqb c sep); [reflexivity|].
  destruct (split sep s); reflexivity.
Qed.

(** A text without the separator in front of [t] goes in front of the
    first piece of [t]. *)
Lemma split_prepend (sep : ascii) (u t : string) :
  has_char sep u = false ->
  split sep (u ++ t)
  = (u ++ hd "" (split sep t))%string :: tl (split sep t).
Proof.
  induction u as [|c u IH]; cbn [append has_char]; intros H.
  - apply split_cons.
  - apply orb_false_iff in H as [Hc Hu]. cbn [split].
    rewrite Ascii.eqb_sym in Hc. now rewrite Hc, (IH Hu).
Qed.

Lemma split_upper (s : string) :
  split ";" (upper s) = map upper (split ";" s).
Proof.
  induction s as [|c s IH]; [reflexivity|]. cbn [upper].
  destruct (Ascii.eqb_spec c ";") as [-> | N].
  - change (upper_str ";") with ";". cbn [append split Ascii.eqb Bool.eqb map].
    now rewrite IH.
  - assert (Hc : has_char ";" (upper_str c) = false).
    { rewrite upper_str_semicolon. apply Ascii.eqb_neq. congruence. }
    rewrite (split_prepend ";" _ _ Hc), IH. cbn [split].
    apply Ascii.eqb_neq in N. rewrite N.
    pose proof (split_cons ";" s) as C.
    destruct (split ";" s) as [|p ps]; [discriminate C|]. reflexivity.
Qed.

Lemma split1_first (sep : ascii) (h t : string) :
  has_char sep h = false -> split1 sep (h ++ String sep t) = [h; t].
Proof.
  induction h as [|c h IH]; cbn [append split1 has_char].
  - intros _. now rewrite Ascii.eqb_refl.
  - intros H. apply orb_false_iff in H as [Hc Hh].
    rewrite Ascii.eqb_sym in Hc. now rewrite Hc, (IH Hh).
Qed.

Lemma has_char_here (sep : ascii) (h t : string) :
  has_char sep (h ++ String sep t) = true.
Proof.
  rewrite has_char_append. cbn [has_char].
  rewrite Ascii.eqb_refl. cbn [orb]. apply orb_true_r.
Qed.

Lemma truthy_app (h t : string) (c : ascii) :
  truthy (h ++ String c t) = true.
Proof. destruct h; reflexivity. Qed.

(** The loop sees the property part of a line in upper case only. *)
Lemma process_line_upper_part (st : parse_state) (pp v : string) :
  has_char ":" pp = false ->
  process_line code_mapper st (pp ++ String ":" v)
  = process_line code_mapper st (upper pp ++ String ":" v).
Proof.
  intros H.
  assert (Hu : has_char ":" (upper pp) = false)
    by now rewrite (has_char_upper ":" pp upper_str_colon).
  assert (U : upper (upper pp ++ String ":" v) = upper (pp ++ String ":" v))
    by now rewrite !upper_app, upper_idem.
  unfold process_line, line_body. rewrite U, !truthy_app, !has_char_here.
  rewrite (split1_first ":" pp v H), (split1_first ":" (upper pp) v Hu).
  rewrite (has_char_upper ";" pp upper_str_semicolon), split_upper.
  rewrite upper_idem.
  replace (upper (hd "" (map upper (split ";" pp))))
    with (upper (hd "" (split ";" pp)))
    by (destruct (split ";" pp); cbn [map hd]; now rewrite ?upper_idem).
  replace (map upper (tl (map upper (split ";" pp))))
    with (map upper (tl (split ";" pp))).
  - reflexivity.
  - destruct (split ";" pp) as [|a l]; cbn [map tl]; [reflexivity|].
    rewrite map_map. apply map_ext. intros x. now rewrite upper_idem.
Qed.

(** C5.  Parameters are compared as whole upper-cased tokens: the property
    part of a line is put in upper case before it is looked at, so
    [tel;cell:555-1234] is mapped as [TEL;CELL:555-1234], and so is every
    line whose property part reads [TEL;CELL] in upper case; a parameter
    that carries an equals sign is no key of the type mapping, so
    [TEL;TYPE=CELL:v], in any letter case, is stored under plain [Phone];
    [TEL;CELL:555-1234] is stored under [Phone (Mobile)] with value
    [555-1234]; [TEL:555-5678] under plain [Phone]; the stored value keeps,
    in order, exactly the digits, [+], [-], [(], [)] and white space of
    the value. *)
Theorem tel_parameters_are_bare_tokens :
  (forall parameters,
      forallb (has_char "=") parameters = true ->
      _get_phone_type parameters = "Phone")
  /\ (forall st v,
        truthy (strip v) = true ->
        process_line code_mapper st ("TEL;TYPE=CELL:" ++ v)%string
        = put "Phone" (keep_chars phone_char (strip v)) st)
  /\ process_line code_mapper ([], []) "TEL;CELL:555-1234"
     = ([("Phone (Mobile)", "555-1234")], ["Phone (Mobile)"])
  /\ process_line code_mapper ([], []) "TEL:555-5678"
     = ([("Phone", "555-5678")], ["Phone"])
  /\ (forall v,
        list_ascii_of_string (keep_chars phone_char v)
        = filter (fun c => is_digit c || Ascii.eqb c "+" || Ascii.eqb c "-"
                           || Ascii.eqb c "(" || Ascii.eqb c ")" || is_space c)
                 (list_ascii_of_string v))
  /\ process_line code_mapper ([], []) "tel;cell:555-1234"
     = ([("Phone (Mobile)", "555-1234")], ["Phone (Mobile)"])
  /\ process_line code_mapper ([], []) "Tel;Home;cell:555-1234"
     = ([("Phone (Home)", "555-1234")], ["Phone (Home)"])
  /\ process_line code_mapper ([], []) "tel;type=cell:555-1234"
     = ([("Phone", "555-1234")], ["Phone"])
  /\ (forall st pp v,
        has_char ":" pp = false ->
        upper pp = "TEL;CELL" ->
        truthy (strip v) = true ->
        process_line code_mapper st (pp ++ String ":" v)
        = put "Phone (Mobile)" (keep_chars phone_char (strip v)) st)
  /\ (forall st pp v,
        has_char ":" pp = false ->
        upper pp = "TEL;TYPE=CELL" ->
        truthy (strip v) = true ->
        process_line code_mapper st (pp ++ String ":" v)
        = put "Phone" (keep_chars phone_char (strip v)) st)
  /\ (forall c, is_space c = true <->
                In c [PyStr.TAB; PyStr.LF; "011"; "012"; PyStr.CR; "028";
                      "029"; "030"; "031"; " "; "133"; "160"]%char).
Proof.
  assert (Upper : forall P st v,
            startswith "BEGIN:VCARD" (upper (P ++ String ":" v)) = false ->
            startswith "END:VCARD" (upper (P ++ String ":" v)) = false ->
            has_char ":" P = false ->
            truthy (strip v) = true ->
            process_line code_mapper st (P ++ String ":" v)
            = _extract_field_data st
                (if has_char ";" P then upper (hd "" (split ";" P))
                 else upper P)
                (strip v)
                (if has_char ";" P then map upper (tl (split ";" P))
                 else [])).
  { intros P st v B E C T. unfold process_line, line_body.
    rewrite truthy_app, B, E, has_char_here, (split1_first ":" P v C), T.
    reflexivity. }
  split; [|split; [|split; [|split; [|split; [|split; [|split; [|split;
    [|split; [|split]]]]]]]]].
  - intros ps. unfold _get_phone_type.
    induction ps as [|p ps IH]; [reflexivity|].
    cbn [forallb first_mapped]. intros H.
    apply andb_true_iff in H as [Hp Hps].
    now rewrite (eq_sign_not_phone_key p Hp), IH.
  - intros st v H.
    assert (Hs : split1 ":" ("TEL;TYPE=CELL:" ++ v)%string
                 = ["TEL;TYPE=CELL"; v]) by reflexivity.
    assert (Hb : negb (truthy ("TEL;TYPE=CELL:" ++ v)%string)
                 || startswith "BEGIN:VCARD" (upper ("TEL;TYPE=CELL:" ++ v)%string)
                 || startswith "END:VCARD" (upper ("TEL;TYPE=CELL:" ++ v)%string)
                 = false) by reflexivity.
    assert (Hc : has_char ":" ("TEL;TYPE=CELL:" ++ v)%string = true)
      by reflexivity.
    unfold process_line, line_body. rewrite Hb, Hc, Hs. cbv zeta.
    rewrite H. cbn [negb]. generalize (strip v). intros sv. reflexivity.
  - reflexivity.
  - reflexivity.
  - intros v. apply keep_chars_filter.
  - reflexivity.
  - reflexivity.
  - reflexivity.
  - intros st pp v C U T. rewrite (process_line_upper_part st pp v C), U.
    rewrite (Upper "TEL;CELL" st v eq_refl eq_refl eq_refl T). reflexivity.
  - intros st pp v C U T. rewrite (process_line_upper_part st pp v C), U.
    rewrite (Upper "TEL;TYPE=CELL" st v eq_refl eq_refl eq_refl T).
    reflexivity.
  - intros c. split.
    + destruct c as [[] [] [] [] [] [] [] []]; intros H;
        try discriminate H; clear H; vm_compute;
        repeat first [left; reflexivity | right].
    + cbn [In]. intros H.
      repeat (destruct H as [<- | H]; [reflexivity|]). destruct H.
Qed.

(** C10. The value [abc] of the line [TEL:abc] is not empty, so the line
    is not skipped; sanitization removes all of it, the contact maps
    [Phone] to the empty string, the record is emitted, and [Phone] enters
    the field set. *)
Theorem tel_can_store_empty_value :
  let vcard := ("BEGIN:VCARD" ++ nl ++ "TEL:abc" ++ nl ++ "END:VCARD")%string in
  truthy (strip "abc") = true
  /\ parse_vcard [] vcard = (Some [("Phone", "")], ["Phone"])
  /\ contacts (parse_content vcard) = [[("Phone", "")]]
  /\ In "Phone" (all_fields (parse_content vcard)).
Proof.
  cbv zeta. repeat split; try reflexivity. vm_compute. now left.
Qed.

(** ** Overwriting within one contact *)

Lemma dict_get_set {V : Type} (f k : string) (v : V) (d : dict V) :
  dict_get f (dict_set k v d)
  = if String.eqb f k then Some v else dict_get f d.
Proof.
  induction d as [|[k' v'] d IH]; cbn [dict_set dict_get].
  - reflexivity.
  - destruct (String.eqb_spec k k') as [<- | Hk]; cbn [dict_get].
    + destruct (String.eqb f k); reflexivity.
    + rewrite IH. destruct (String.eqb_spec f k') as [-> | Hf]; [|reflexivity].
      destruct (String.eqb_spec k' k) as [E | _]; [congruence | reflexivity].
Qed.

Lemma dict_set_keys {V : Type} (k : string) (v : V) (d : dict V) :
  dict_keys (dict_set k v d)
  = if fs_mem k (dict_keys d) then dict_keys d else dict_keys d ++ [k].
Proof.
  unfold dict_keys, fs_mem.
  induction d as [|[k' v'] d IH]; cbn [dict_set map fst existsb app].
  - reflexivity.
  - destruct (String.eqb_spec k k') as [<- | Hk]; cbn [map fst orb].
    + reflexivity.
    + rewrite IH. now destruct (existsb (String.eqb k) (map fst d)).
Qed.

Lemma fs_mem_In (f : string) (fs : fieldset) :
  fs_mem f fs = true <-> In f fs.
Proof.
  unfold fs_mem. rewrite existsb_exists. split.
  - intros (g & Hg & E). apply String.eqb_eq in E. now subst.
  - intros H. exists f. split; [exact H | apply String.eqb_refl].
Qed.

Lemma dict_set_NoDup {V : Type} (k : string) (v : V) (d : dict V) :
  NoDup (dict_keys d) -> NoDup (dict_keys (dict_set k v d)).
Proof.
  intros H. rewrite dict_set_keys. destruct (fs_mem k (dict_keys d)) eqn:E.
  - exact H.
  - apply NoDup_app; [exact H | repeat constructor; intros [] |].
    intros a Ha [<- | []]. apply fs_mem_In in Ha. congruence.
Qed.

Lemma put_dict_le (k v : string) (st0 st : parse_state) :
  dict_le (fst st0) (fst st) ->
  dict_le (fst (put k v st0)) (fst (put k v st)).
Proof.
  intros H f x. unfold put. cbn [fst]. rewrite !dict_get_set.
  destruct (String.eqb f k); [trivial | apply H].
Qed.

Lemma put_positional_dict_le (fields parts : list string)
    (name_of : string -> string) (st0 st : parse_state) :
  dict_le (fst st0) (fst st) ->
  dict_le (fst (put_positional fields parts name_of st0))
          (fst (put_positional fields parts name_of st)).
Proof.
  unfold put_positional. generalize (enumerate fields) as l.
  intros l. revert st0 st. induction l as [|[i field] l IH]; intros st0 st H.
  - exact H.
  - cbn [fold_left fst snd]. apply IH.
    destruct (nth_error parts i) as [part|]; [|exact H].
    destruct (truthy part); [now apply put_dict_le | exact H].
Qed.

Lemma extract_dict_le (st0 st : parse_state)
    (property_name value : string) (parameters : list string) :
  dict_le (fst st0) (fst st) ->
  dict_le (fst (_extract_field_data st0 property_name value parameters))
          (fst (_extract_field_data st property_name value parameters)).
Proof.
  intros H. unfold _extract_field_data.
  repeat match goal with
         | |- context [if ?b then _ else _] => destruct b
         | |- context [match ?l with [] => _ | _ :: _ => _ end] => destruct l
         end;
    cbv zeta;
    repeat first [ exact H
                 | apply put_positional_dict_le
                 | apply put_dict_le ].
Qed.

Lemma put_NoDup (k v : string) (st : parse_state) :
  NoDup (dict_keys (fst st)) -> NoDup (dict_keys (fst (put k v st))).
Proof. apply dict_set_NoDup. Qed.

Lemma put_positional_NoDup (fields parts : list string)
    (name_of : string -> string) (st : parse_state) :
  NoDup (dict_keys (fst st)) ->
  NoDup (dict_keys (fst (put_positional fields parts name_of st))).
Proof.
  unfold put_positional. generalize (enumerate fields) as l.
  intros l. revert st. induction l as [|[i field] l IH]; intros st H.
  - exact H.
  - cbn [fold_left fst snd]. apply IH.
    destruct (nth_error parts i) as [part|]; [|exact H].
    destruct (truthy part); [now apply put_NoDup | exact H].
Qed.

Lemma extract_NoDup (st : parse_state)
    (property_name value : string) (parameters : list string) :
  NoDup (dict_keys (fst st)) ->
  NoDup (dict_keys
           (fst (_extract_field_data st property_name value parameters))).
Proof.
  intros H. unfold _extract_field_data.
  repeat match goal with
         | |- context [if ?b then _ else _] => destruct b
         | |- context [match ?l with [] => _ | _ :: _ => _ end] => destruct l
         end;
    cbv zeta;
    repeat first [ exact H
                 | apply put_positional_NoDup
                 | apply put_NoDup ].
Qed.

(** C7.  Whatever value a property line derives for a field name is the
    value the contact holds for that name once the line is mapped, whatever
    an earlier line stored there: the later line overwrites.  Nothing is
    accumulated: each field name keeps one entry in the contact. *)
Theorem later_line_overwrites (st : parse_state)
    (p1 v1 : string) (ps1 : list string)
    (p2 v2 : string) (ps2 : list string) (f x : string) :
  dict_get f (fst (_extract_field_data ([], []) p2 v2 ps2)) = Some x ->
  let st1 := _extract_field_data st p1 v1 ps1 in
  let st2 := _extract_field_data st1 p2 v2 ps2 in
  dict_get f (fst st2) = Some x
  /\ (NoDup (dict_keys (fst st)) -> NoDup (dict_keys (fst st2))).
Proof.
  intros H st1 st2. split.
  - revert H. apply extract_dict_le. intros g y Hg. discriminate Hg.
  - intros Hst. subst st1 st2. now do 2 apply extract_NoDup.
Qed.

(** Two [TEL;HOME] lines: the contact holds the second number. *)
Lemma later_line_overwrites_witness :
  dict_get "Phone (Home)"
    (fst (_extract_field_data
            (_extract_field_data ([], []) "TEL" "111" ["HOME"])
            "TEL" "222" ["HOME"])) = Some "222"
  /\ process_lines code_mapper ([], []) ["TEL;HOME:111"; "TEL;HOME:222"]
     = ([("Phone (Home)", "222")], ["Phone (Home)"]).
Proof.
  split.
  - apply (later_line_overwrites ([], []) "TEL" "111" ["HOME"]
             "TEL" "222" ["HOME"] "Phone (Home)" "222").
    reflexivity.
  - reflexivity.
Defined.

(** ** Field groups *)

Lemma fold_fs_add_In (l used : fieldset) (f : string) :
  In f (fold_left (fun u f => fs_add f u) l used) <-> In f used \/ In f l.
Proof.
  revert used. induction l as [|a l IH]; intros used; cbn [fold_left In].
  - tauto.
  - rewrite IH. unfold fs_add. destruct (fs_mem a used) eqn:E.
    + apply fs_mem_In in E. intuition (subst; auto).
    + rewrite in_app_iff. cbn [In]. intuition auto.
Qed.

Lemma fold_update_In (ls : list (list string)) (used : fieldset) (f : string) :
  In f (fold_left
          (fun used fields => fold_left (fun u f => fs_add f u) fields used)
          ls used)
  <-> In f used \/ exists l, In l ls /\ In f l.
Proof.
  revert used. induction ls as [|l ls IH]; intros used; cbn [fold_left In].
  - split; [auto | intros [H | (l & [] & _)]; exact H].
  - rewrite IH, fold_fs_add_In. split.
    + intros [[H | H] | (l' & H1 & H2)]; eauto.
    + intros [H | (l' & [<- | H1] & H2)]; eauto.
Qed.

Lemma set_other_fields (F : string * list string -> list string)
    (X : list string) :
  dict_set "Other Fields" X
    (map (fun g => (fst g, F g)) keyword_groups ++ [("Other Fields", [])])
  = map (fun g => (fst g, F g)) keyword_groups ++ [("Other Fields", X)].
Proof. reflexivity. Qed.

(** The shape of the result before empty groups are removed. *)
Lemma get_field_suggestions_shape (fs : fieldset) :
  get_field_suggestions fs =
  filter nonempty_group
    (map (fun g => (fst g, filter (matches_any (snd g)) fs)) keyword_groups
     ++ [("Other Fields", filter (fun f => negb (keyword_matched f)) fs)]).
Proof.
  unfold get_field_suggestions. fold nonempty_group.
  rewrite (set_other_fields (fun g => filter (matches_any (snd g)) fs)).
  f_equal. f_equal. f_equal. f_equal.
  apply filter_ext_in. intros f Hf. f_equal.
  apply eq_true_iff_eq. rewrite fs_mem_In, fold_update_In.
  unfold keyword_matched. rewrite existsb_exists.
  rewrite map_app, map_map. split.
  - intros [[] | (l & Hl & Hfl)].
    apply in_app_iff in Hl as [Hl | Hl].
    + apply in_map_iff in Hl as (g & <- & Hg). cbn [snd] in Hfl.
      apply filter_In in Hfl as [_ Hm]. now exists g.
    + destruct Hl as [<- | []]. destruct Hfl.
  - intros (g & Hg & Hm). right.
    exists (filter (matches_any (snd g)) fs). split.
    + apply in_app_iff. left. apply in_map_iff. now exists g.
    + apply filter_In. now split.
Qed.

Lemma keyword_group_unique (g : string) (k1 k2 : list string) :
  In (g, k1) keyword_groups -> In (g, k2) keyword_groups -> k1 = k2.
Proof.
  cbn [keyword_groups In]. intros H1 H2.
  repeat (destruct H1 as [H1 | H1]; [inversion H1; subst; clear H1|]);
    try contradiction;
    repeat (destruct H2 as [H2 | H2]; [inversion H2; subst; clear H2|]);
    try contradiction; reflexivity.
Qed.

Lemma other_is_no_keyword_group (k : list string) :
  ~ In ("Other Fields", k) keyword_groups.
Proof.
  cbn [keyword_groups In]. intros H.
  repeat (destruct H as [H | H]; [discriminate H|]). exact H.
Qed.

Lemma in_get_field_suggestions (fs : fieldset) (g : string)
    (members : list string) :
  In (g, members) (get_field_suggestions fs) <->
  members <> [] /\
  ((exists kws, In (g, kws) keyword_groups
                /\ members = filter (matches_any kws) fs)
   \/ (g = "Other Fields"
       /\ members = filter (fun f => negb (keyword_matched f)) fs)).
Proof.
  rewrite get_field_suggestions_shape, filter_In, in_app_iff, in_map_iff.
  unfold nonempty_group. cbn [snd In]. split.
  - intros [H Hne]. split; [now destruct members|].
    destruct H as [([g' kws] & E & Hg) | [E | []]].
    + cbn [fst snd] in E. inversion E; subst. left. now exists kws.
    + inversion E; subst. now right.
  - intros [Hne H]. split; [|now destruct members].
    destruct H as [(kws & Hg & ->) | [-> ->]].
    + left. now exists (g, kws).
    + right. now left.
Qed.

(** C2, as amended.  A field is listed under every keyword group whose
    keyword list matches its lower-cased name by substring, whether or not
    an earlier group matches it too; it is listed under Other Fields when no
    keyword group matches it, and only then; so every field is listed under
    at least one group; and no group of the result is empty. *)
Theorem field_groups_by_keyword (fs : fieldset) (f : string) :
  (forall g kws, In (g, kws) keyword_groups ->
     (in_group g f (get_field_suggestions fs)
      <-> In f fs /\ matches_any kws f = true))
  /\ (in_group "Other Fields" f (get_field_suggestions fs)
      <-> In f fs /\ keyword_matched f = false)
  /\ (In f fs -> exists g, in_group g f (get_field_suggestions fs))
  /\ (forall g members,
        In (g, members) (get_field_suggestions fs) -> members <> []).
Proof.
  assert (K : forall g kws, In (g, kws) keyword_groups ->
     (in_group g f (get_field_suggestions fs)
      <-> In f fs /\ matches_any kws f = true)).
  { intros g kws Hg. unfold in_group. split.
    - intros (members & Hin & Hf).
      apply in_get_field_suggestions in Hin as [_ [(k & Hk & ->) | [-> _]]].
      + rewrite (keyword_group_unique g kws k Hg Hk).
        now apply filter_In in Hf.
      + now apply other_is_no_keyword_group in Hg.
    - intros [Hf Hm]. exists (filter (matches_any kws) fs).
      assert (Hin : In f (filter (matches_any kws) fs))
        by (apply filter_In; now split).
      split; [|exact Hin]. apply in_get_field_suggestions. split.
      + intros E. rewrite E in Hin. destruct Hin.
      + left. now exists kws. }
  assert (O : in_group "Other Fields" f (get_field_suggestions fs)
              <-> In f fs /\ keyword_matched f = false).
  { unfold in_group. split.
    - intros (members & Hin & Hf).
      apply in_get_field_suggestions in Hin as [_ [(k & Hk & _) | [_ ->]]].
      + now apply other_is_no_keyword_group in Hk.
      + apply filter_In in Hf as [Hf Hm]. split; [exact Hf|].
        now destruct (keyword_matched f).
    - intros [Hf Hm].
      exists (filter (fun f => negb (keyword_matched f)) fs).
      assert (Hin : In f (filter (fun f => negb (keyword_matched f)) fs))
        by (apply filter_In; rewrite Hm; now split).
      split; [|exact Hin]. apply in_get_field_suggestions. split.
      + intros E. rewrite E in Hin. destruct Hin.
      + now right. }
  split; [exact K|]. split; [exact O|]. split.
  - intros Hf. destruct (keyword_matched f) eqn:E.
    + unfold keyword_matched in E.
      apply existsb_exists in E as ([g kws] & Hg & Hm).
      exists g. apply (K g kws Hg). now split.
    + exists "Other Fields". apply O. now split.
  - intros g members Hin. now apply in_get_field_suggestions in Hin.
Qed.

(** C2 as stated fails: [Phone (Work)], the field name of a [TEL;WORK]
    line, is listed under Contact Fields and again under Work Fields. *)
Lemma field_listed_in_two_groups :
  snd (parse_vcard []
         ("BEGIN:VCARD" ++ nl ++ "TEL;WORK:1" ++ nl ++ "END:VCARD")%string)
  = ["Phone (Work)"]
  /\ get_field_suggestions ["Phone (Work)"]
     = [("Contact Fields", ["Phone (Work)"]);
        ("Work Fields", ["Phone (Work)"])]
  /\ in_group "Contact Fields" "Phone (Work)"
       (get_field_suggestions ["Phone (Work)"])
  /\ in_group "Work Fields" "Phone (Work)"
       (get_field_suggestions ["Phone (Work)"])
  /\ "Contact Fields" <> "Work Fields".
Proof.
  split; [reflexivity|]. split; [reflexivity|]. split; [|split].
  - exists ["Phone (Work)"]. split; [vm_compute; auto | now left].
  - exists ["Phone (Work)"]. split; [vm_compute; auto | now left].
  - discriminate.
Qed.

(** ** The date normalizer *)

Module DateFacts.
Import Date.
Local Open Scope N_scope.

Lemma digit_char_spec (k : N) :
  k < 10 -> is_digit (digit_char k) = true /\ digit_val (digit_char k) = k.
Proof.
  intros H.
  assert (E : k = 0 \/ k = 1 \/ k = 2 \/ k = 3 \/ k = 4 \/ k = 5 \/ k = 6
              \/ k = 7 \/ k = 8 \/ k = 9) by lia.
  repeat (destruct E as [-> | E]; [now vm_compute|]). subst k. now vm_compute.
Qed.

Lemma is_digit_mod10 (n : N) : is_digit (digit_char (n mod 10)) = true.
Proof. apply digit_char_spec. apply N.mod_lt. discriminate. Qed.

Lemma four_digits_pad4 (y : N) (rest : string) :
  y <= 9999 -> four_digits (pad4 y ++ rest)%string = [(y, rest)].
Proof.
  intros Hy. unfold pad4, pad2. cbn [append four_digits].
  destruct (digit_char_spec (y / 1000 mod 10)) as [D1 V1];
    [apply N.mod_lt; lia|].
  destruct (digit_char_spec (y / 100 mod 10)) as [D2 V2];
    [apply N.mod_lt; lia|].
  destruct (digit_char_spec (y / 10 mod 10)) as [D3 V3];
    [apply N.mod_lt; lia|].
  destruct (digit_char_spec (y mod 10)) as [D4 V4];
    [apply N.mod_lt; lia|].
  rewrite D1, D2, D3, D4, V1, V2, V3, V4. cbn [andb]. do 2 f_equal.
  clear - Hy. zify. Z.to_euclidean_division_equations. lia.
Qed.

(** Evaluate the group at the head of the format on a string whose first
    characters are known. *)
Ltac run_group :=
  cbn [regex_matches];
  match goal with
  | |- context [group_matches ?d ?s] =>
      let v := eval vm_compute in (group_matches d s) in
      change (group_matches d s) with v
  end;
  cbn [flat_map fst snd regex_matches app Ascii.eqb Bool.eqb];
  rewrite ?app_nil_r.

(** The year group on a four-digit year. *)
Lemma year_step (y : N) (fmt : format) (rest : string) (acc : date) :
  y <= 9999 ->
  regex_matches (Dir Dir_Y :: fmt) (pad4 y ++ rest)%string acc
  = regex_matches fmt rest (set_group Dir_Y y acc).
Proof.
  intros Hy. cbn [regex_matches group_matches].
  rewrite (four_digits_pad4 y rest Hy). cbn [flat_map fst snd].
  apply app_nil_r.
Qed.

Lemma lit_step (c : ascii) (fmt : format) (rest : string) (acc : date) :
  regex_matches (Lit c :: fmt) (String c rest) acc
  = regex_matches fmt rest acc.
Proof. cbn [regex_matches]. now rewrite Ascii.eqb_refl. Qed.

(** The month group on a two-digit month that a hyphen follows: the
    one-digit alternative the matcher may fall back to stops at the second
    digit. *)
Lemma month_step (m : N) (fmt : format) (rest : string) (acc : date) :
  1 <= m <= 12 ->
  regex_matches (Dir Dir_m :: Lit "-" :: fmt)
                (pad2 m ++ String "-" rest)%string acc
  = regex_matches fmt rest (set_group Dir_m m acc).
Proof.
  intros H.
  assert (E : m = 1 \/ m = 2 \/ m = 3 \/ m = 4 \/ m = 5 \/ m = 6 \/ m = 7
              \/ m = 8 \/ m = 9 \/ m = 10 \/ m = 11 \/ m = 12) by lia.
  clear H.
  repeat (destruct E as [-> | E]; [now run_group|]).
  subst m. now run_group.
Qed.

Lemma day_cases (d : N) :
  1 <= d <= 31 ->
  In d [1; 2; 3; 4; 5; 6; 7; 8; 9; 10; 11; 12; 13; 14; 15; 16; 17; 18; 19;
        20; 21; 22; 23; 24; 25; 26; 27; 28; 29; 30; 31].
Proof. cbn [In]. lia. Qed.

(** The day group on a two-digit day at the end of the string: the first
    match takes both digits. *)
Lemma day_final (d : N) (acc : date) :
  1 <= d <= 31 ->
  hd_error (regex_matches [Dir Dir_d] (pad2 d) acc)
  = Some (set_group Dir_d d acc, "").
Proof.
  intros H. apply day_cases in H. cbn [In] in H.
  repeat (destruct H as [<- | H]; [now run_group|]). destruct H.
Qed.

Lemma days_in_month_le (y m : N) : days_in_month y m <= 31.
Proof.
  unfold days_in_month.
  repeat match goal with
         | |- context [match ?x with _ => _ end] => destruct x
         end; lia.
Qed.

Lemma valid_date_bounds (d : date) :
  valid_date d = true ->
  1 <= year d <= 9999 /\ 1 <= month d <= 12 /\ 1 <= day d <= 31.
Proof.
  unfold valid_date. rewrite !andb_true_iff, !N.leb_le.
  pose proof (days_in_month_le (year d) (month d)). lia.
Qed.

Lemma strftime_shape (zp : bool) (d : date) :
  strftime zp d
  = (year_text zp (year d)
     ++ String "-" (pad2 (month d) ++ String "-" (pad2 (day d))))%string.
Proof. reflexivity. Qed.

(** A date written with a four-digit year reads back as itself under
    ['%Y-%m-%d'] ... *)
Lemma strptime_iso_strftime (d : date) :
  valid_date d = true -> strptime (strftime true d) fmt_iso = Some d.
Proof.
  intros V. destruct (valid_date_bounds d V) as (Hy & Hm & Hd).
  unfold strptime, fmt_iso. rewrite strftime_shape. cbn [year_text].
  rewrite year_step, lit_step, month_step by lia.
  pose proof (day_final (day d)
    (set_group Dir_m (month d) (set_group Dir_Y (year d) (mkdate 1900 1 1))) Hd)
    as F.
  destruct (regex_matches [Dir Dir_d] (pad2 (day d)) _) as [|[d' r] l];
    [discriminate F|].
  cbn [hd_error] in F. inversion F; subst. cbn [truthy set_group year month day].
  destruct d as [y m dd]. cbn [year month day] in *. now rewrite V.
Qed.

(** ... and does not parse under ['%Y%m%d'], which wants a month where the
    first hyphen stands. *)
Lemma strptime_compact_strftime (d : date) :
  valid_date d = true -> strptime (strftime true d) fmt_compact = None.
Proof.
  intros V. destruct (valid_date_bounds d V) as (Hy & Hm & Hd).
  unfold strptime, fmt_compact. rewrite strftime_shape. cbn [year_text].
  rewrite year_step by lia. reflexivity.
Qed.

Lemma strptime_valid (s : string) (fmt : format) (d : date) :
  strptime s fmt = Some d -> valid_date d = true.
Proof.
  unfold strptime. destruct (regex_matches fmt s _) as [|[d' r] l];
    [discriminate|].
  destruct (truthy r); [discriminate|].
  destruct (valid_date d') eqn:V; [|discriminate].
  intros E. inversion E; subst. exact V.
Qed.

(** The two ways the loop over the formats ends. *)
Lemma try_formats_cases (zp : bool) (fmts : list format) (s : string) :
  (Forall (fun fmt => strptime s fmt = None) fmts
   /\ try_formats zp fmts s = s)
  \/ (exists pre fmt post d,
        fmts = pre ++ fmt :: post
        /\ Forall (fun f => strptime s f = None) pre
        /\ strptime s fmt = Some d
        /\ try_formats zp fmts s = strftime zp d).
Proof.
  induction fmts as [|fmt fmts IH]; cbn [try_formats].
  - left. split; [constructor | reflexivity].
  - destruct (strptime s fmt) as [d|] eqn:E.
    + right. exists [], fmt, fmts, d. repeat split; [constructor | exact E].
    + destruct IH as [[Hall Hs] | (pre & f & post & d & -> & Hpre & Hf & Hr)].
      * left. split; [now constructor | exact Hs].
      * right. exists (fmt :: pre), f, post, d.
        repeat split; [now constructor | exact Hf | exact Hr].
Qed.

Lemma try_formats_none (zp : bool) (fmts : list format) (s : string) :
  Forall (fun f => strptime s f = None) fmts -> try_formats zp fmts s = s.
Proof.
  intros H. induction H as [|f fmts Hf _ IH]; cbn [try_formats].
  - reflexivity.
  - now rewrite Hf.
Qed.

(** *** A year below 1000 printed without leading zeros *)

Lemma has_char_app (c : ascii) (p r : string) :
  has_char c (p ++ r)%string = has_char c p || has_char c r.
Proof.
  induction p as [|a p IH]; cbn [append has_char]; [reflexivity|].
  now rewrite IH, orb_assoc.
Qed.

(** A group consumes a prefix of the string. *)
Lemma group_rest (d : directive) (s r : string) (v : N) :
  In (v, r) (group_matches d s) -> exists p, s = (p ++ r)%string.
Proof.
  assert (One : forall p, In (v, r) (one p s) -> exists q, s = (q ++ r)%string).
  { intros p. unfold one. destruct s as [|a s]; [intros []|].
    destruct (p a); [|intros []]. intros [E | []]. inversion E; subst.
    now exists (String a ""). }
  assert (Two : forall p1 p2,
             In (v, r) (two p1 p2 s) -> exists q, s = (q ++ r)%string).
  { intros p1 p2. unfold two. destruct s as [|a [|b s]]; try (intros []).
    destruct (p1 a && p2 b); [|intros []]. intros [E | []].
    inversion E; subst. now exists (String a (String b "")). }
  destruct d; cbn [group_matches]; rewrite ?in_app_iff.
  - unfold four_digits. destruct s as [|a [|b [|c [|e s]]]]; try (intros []).
    destruct (is_digit a && is_digit b && is_digit c && is_digit e);
      [|intros []].
    intros [E | []]. inversion E; subst.
    now exists (String a (String b (String c (String e "")))).
  - intros [H | [H | H]]; eauto.
  - intros [H | [H | [H | [H | H]]]]; eauto.
Qed.

Lemma flat_map_nil {A B : Type} (f : A -> list B) (l : list A) :
  (forall x, In x l -> f x = []) -> flat_map f l = [].
Proof.
  induction l as [|a l IH]; intros H; cbn [flat_map]; [reflexivity|].
  rewrite (H a) by now left. apply IH. intros x Hx. apply H. now right.
Qed.

(** A format with a literal character does not match a string that lacks
    it. *)
Lemma literal_absent (c : ascii) (fmt : format) (s : string) (acc : date) :
  In (Lit c) fmt -> has_char c s = false -> regex_matches fmt s acc = [].
Proof.
  revert s acc. induction fmt as [|[d | c'] fmt IH]; intros s acc Hin Hc.
  - destruct Hin.
  - destruct Hin as [E | Hin]; [discriminate E|].
    cbn [regex_matches]. apply flat_map_nil. intros [v r] Hvr. cbn [fst snd].
    apply IH; [exact Hin|].
    destruct (group_rest d s r v Hvr) as [p ->].
    rewrite has_char_app in Hc. now apply orb_false_iff in Hc.
  - cbn [regex_matches]. destruct s as [|a s]; [reflexivity|].
    cbn [has_char] in Hc. apply orb_false_iff in Hc as [Ha Hs].
    destruct Hin as [E | Hin].
    + inversion E; subst. now rewrite Ha.
    + destruct (Ascii.eqb c' a); [now apply IH | reflexivity].
Qed.

Lemma digit_not (c x : ascii) :
  is_digit x = false -> is_digit c = true -> Ascii.eqb x c = false.
Proof.
  intros Hx Hc. destruct (Ascii.eqb_spec x c) as [-> | _]; congruence.
Qed.

(** The text of a year below 1000, leading zeros dropped: one, two or three
    digits. *)
Lemma short_year_text (y : N) :
  y < 1000 ->
  exists a t, year_text false y = String a t
              /\ is_digit a = true
              /\ (t = ""
                  \/ (exists b, t = String b "" /\ is_digit b = true)
                  \/ (exists b c, t = String b (String c "")
                                  /\ is_digit b = true /\ is_digit c = true)).
Proof.
  intros Hy. unfold year_text, pad4, pad2.
  replace (y / 1000 mod 10) with 0
    by (zify; Z.to_euclidean_division_equations; lia).
  pose proof (is_digit_mod10 (y / 100)) as D2.
  pose proof (is_digit_mod10 (y / 10)) as D3.
  pose proof (is_digit_mod10 y) as D4.
  change (digit_char 0) with "0"%char.
  generalize dependent (digit_char (y / 100 mod 10)). intros b D2.
  generalize dependent (digit_char (y / 10 mod 10)). intros c D3.
  generalize dependent (digit_char (y mod 10)). intros e D4.
  cbn [drop_zeros Ascii.eqb Bool.eqb].
  destruct (Ascii.eqb b "0").
  - destruct (Ascii.eqb c "0").
    + exists e, "". repeat split; try assumption.
      * now destruct (Ascii.eqb e "0").
      * now left.
    + exists c, (String e ""). repeat split; try assumption.
      right. left. now exists e.
  - exists b, (String c (String e "")). repeat split; try assumption.
    right. right. now exists c, e.
Qed.

(** With a year of fewer than four digits in front, no format parses the
    string: the year group wants four digits, and the other two formats
    want a slash. *)
Lemma short_year_unparsed (d : date) :
  valid_date d = true -> year d < 1000 ->
  Forall (fun fmt => strptime (strftime false d) fmt = None) formats.
Proof.
  intros V Hy. rewrite strftime_shape.
  destruct (short_year_text (year d) Hy) as (a & t & -> & Da & Ht).
  pose proof (is_digit_mod10 (month d / 10)) as M1.
  pose proof (is_digit_mod10 (month d)) as M2.
  pose proof (is_digit_mod10 (day d / 10)) as E1.
  pose proof (is_digit_mod10 (day d)) as E2.
  unfold pad2.
  generalize dependent (digit_char (month d / 10 mod 10)). intros m1 M1.
  generalize dependent (digit_char (month d mod 10)). intros m2 M2.
  generalize dependent (digit_char (day d / 10 mod 10)). intros d1 E1.
  generalize dependent (digit_char (day d mod 10)). intros d2 E2.
  assert (S : forall x, is_digit x = true -> Ascii.eqb "/" x = false)
    by (intros x; now apply digit_not).
  assert (Y : forall rest acc fmt,
             regex_matches (Dir Dir_Y :: fmt)
               (String a t ++ String "-" rest)%string acc = []
             \/ exists b c, t = String b (String c "")).
  { intros rest acc fmt. cbn [regex_matches group_matches].
    destruct Ht as [-> | [(b & -> & Db) | (b & c & -> & Db & Dc)]].
    - left. cbn [append four_digits].
      destruct rest as [|r1 [|r2 rest]]; try reflexivity.
      change (is_digit "-") with false. now rewrite andb_false_r.
    - left. cbn [append four_digits].
      destruct rest as [|r1 rest]; try reflexivity.
      change (is_digit "-") with false. now rewrite !andb_false_r.
    - right. now exists b, c. }
  assert (Y' : forall rest acc fmt,
             regex_matches (Dir Dir_Y :: fmt)
               (String a t ++ String "-" rest)%string acc = []).
  { intros rest acc fmt. destruct (Y rest acc fmt) as [H | (b & c & ->)];
      [exact H|].
    cbn [regex_matches group_matches append four_digits].
    change (is_digit "-") with false. now rewrite !andb_false_r. }
  assert (NoSlash : has_char "/"
            (String a t ++ String "-" (String m1 (String m2 "")
                                         ++ String "-" (String d1 (String d2 ""))))%string
            = false).
  { destruct Ht as [-> | [(b & -> & Db) | (b & c & -> & Db & Dc)]];
      cbn [append has_char];
      repeat match goal with
             | H : is_digit ?x = true |- context [Ascii.eqb "/" ?x] =>
                 rewrite (S x H)
             end;
      change (Ascii.eqb "/" "-") with false; reflexivity. }
  unfold formats, strptime.
  repeat constructor.
  - unfold fmt_compact. now rewrite Y'.
  - unfold fmt_iso. now rewrite Y'.
  - rewrite (literal_absent "/" fmt_mdy); [reflexivity | | exact NoSlash].
    cbn [fmt_mdy In]. tauto.
  - rewrite (literal_absent "/" fmt_dmy); [reflexivity | | exact NoSlash].
    cbn [fmt_dmy In]. tauto.
Qed.

(** A year of 1000 or more has no leading zero to drop. *)
Lemma long_year_text (zp : bool) (y : N) :
  1000 <= y <= 9999 -> year_text zp y = pad4 y.
Proof.
  intros Hy. destruct zp; [reflexivity|]. unfold year_text, pad4.
  assert (E : 1 <= y / 1000 mod 10 <= 9)
    by (zify; Z.to_euclidean_division_equations; lia).
  assert (C : y / 1000 mod 10 = 1 \/ y / 1000 mod 10 = 2
              \/ y / 1000 mod 10 = 3 \/ y / 1000 mod 10 = 4
              \/ y / 1000 mod 10 = 5 \/ y / 1000 mod 10 = 6
              \/ y / 1000 mod 10 = 7 \/ y / 1000 mod 10 = 8
              \/ y / 1000 mod 10 = 9) by lia.
  cbn [drop_zeros].
  repeat (destruct C as [-> | C]; [reflexivity|]). now rewrite C.
Qed.

(** A normalized date is a fixed point of the normalizer, under either
    convention for the year. *)
Lemma format_date_strftime (zp : bool) (d : date) :
  valid_date d = true -> format_date zp (strftime zp d) = strftime zp d.
Proof.
  intros V. destruct (valid_date_bounds d V) as (Hy & _).
  assert (Four : strftime zp d = strftime true d ->
                 format_date zp (strftime zp d) = strftime zp d).
  { generalize (strftime zp d) at 1 2. intros s ->.
    unfold format_date, formats. cbn [try_formats].
    now rewrite (strptime_compact_strftime d V), (strptime_iso_strftime d V). }
  destruct zp; [now apply Four|].
  destruct (N.lt_ge_cases (year d) 1000) as [Short | Long].
  - apply try_formats_none. now apply short_year_unparsed.
  - apply Four. rewrite !strftime_shape.
    now rewrite (long_year_text false (year d)) by lia.
Qed.

End DateFacts.





(** C9.  The date normalizer is idempotent, whichever way the year is
    printed: a string no format parses is returned as it is, so a second
    application sees the same string; a normalized date parses under
    YYYY-MM-DD, and only there, as the same date (or, with a year printed
    in fewer than four digits, under no format at all). *)
Theorem format_date_idempotent :
  (forall s, _format_date (_format_date s) = _format_date s)
  /\ (forall zp s,
        Date.format_date zp (Date.format_date zp s) = Date.format_date zp s).
Proof.
  assert (G : forall zp s,
        Date.format_date zp (Date.format_date zp s) = Date.format_date zp s).
  { intros zp s. unfold Date.format_date at 2 3.
    destruct (DateFacts.try_formats_cases zp Date.formats s)
      as [[_ H] | (pre & fmt & post & d & _ & _ & Hf & Hr)].
    - now rewrite H.
    - rewrite Hr. apply DateFacts.format_date_strftime.
      exact (DateFacts.strptime_valid s fmt d Hf). }
  split; [exact (G false) | exact G].
Qed.

(** ** The decoder *)

Lemma first_decoding_cases (es : list Decoder.encoding) (file : list byte) :
  (Forall (fun e => Decoder.read_as e file = None) es
   /\ Decoder.first_decoding es file = None)
  \/ (exists pre e post content,
        es = pre ++ e :: post
        /\ Forall (fun e' => Decoder.read_as e' file = None) pre
        /\ Decoder.read_as e file = Some content
        /\ Decoder.first_decoding es file = Some content).
Proof.
  induction es as [|e es IH]; cbn [Decoder.first_decoding].
  - left. split; [constructor | reflexivity].
  - destruct (Decoder.read_as e file) as [content|] eqn:E.
    + right. exists [], e, es, content.
      repeat split; [constructor | exact E].
    + destruct IH as [[Hall Hn] | (pre & e' & post & c & -> & Hpre & He & Hr)].
      * left. split; [now constructor | exact Hn].
      * right. exists (e :: pre), e', post, c.
        repeat split; [now constructor | exact He | exact Hr].
Qed.

Lemma first_decoding_first (pre : list Decoder.encoding)
    (e : Decoder.encoding) (post : list Decoder.encoding)
    (file : list byte) (content : Decoder.text) :
  Forall (fun e' => Decoder.read_as e' file = None) pre ->
  Decoder.read_as e file = Some content ->
  Decoder.first_decoding (pre ++ e :: post) file = Some content.
Proof.
  intros Hpre He.
  induction Hpre as [|e' pre He' _ IH]; cbn [app Decoder.first_decoding].
  - now rewrite He.
  - now rewrite He'.
Qed.

(** Latin-1 rejects no byte, so the loop always ends with a content. *)
Lemma read_content_total (file : list byte) :
  exists content, Decoder.read_content file = inl content.
Proof.
  unfold Decoder.read_content.
  destruct (first_decoding_cases Decoder.encodings file)
    as [[Hall _] | (pre & e & post & c & _ & _ & _ & ->)].
  - exfalso. unfold Decoder.encodings in Hall.
    inversion Hall as [|? ? _ H1]; subst. inversion H1 as [|? ? _ H2]; subst.
    inversion H2 as [|? ? H3 _]; subst. discriminate H3.
  - now exists c.
Qed.

(** C8.  The encodings are tried in the order UTF-8, UTF-8 with byte-order
    mark, Latin-1, Windows-1252, ISO-8859-1; the content is the text of the
    first encoding that decodes the file, and the error is raised exactly
    when every encoding fails. *)
Theorem decoder_first_success (file : list byte) :
  Decoder.encodings
  = [Decoder.utf_8; Decoder.utf_8_sig; Decoder.latin1; Decoder.cp1252;
     Decoder.iso_8859_1]
  /\ (forall content,
        Decoder.read_content file = inl content <->
        exists pre e post,
          Decoder.encodings = pre ++ e :: post
          /\ Forall (fun e' => Decoder.read_as e' file = None) pre
          /\ Decoder.read_as e file = Some content)
  /\ ((exists err, Decoder.read_content file = inr err) <->
      Forall (fun e => Decoder.read_as e file = None) Decoder.encodings).
Proof.
  split; [reflexivity|]. unfold Decoder.read_content. split.
  - intros content. split.
    + destruct (first_decoding_cases Decoder.encodings file)
        as [[_ ->] | (pre & e & post & c & E & Hpre & He & ->)];
        [discriminate|].
      intros H. inversion H; subst. now exists pre, e, post.
    + intros (pre & e & post & -> & Hpre & He).
      now rewrite (first_decoding_first pre e post file content Hpre He).
  - split.
    + intros [err H].
      destruct (first_decoding_cases Decoder.encodings file)
        as [[Hall _] | (pre & e & post & c & _ & _ & _ & E)];
        [exact Hall|].
      rewrite E in H. discriminate H.
    + intros Hall.
      destruct (first_decoding_cases Decoder.encodings file)
        as [[_ ->] | (pre & e & post & c & E & Hpre & He & _)].
      * eexists. reflexivity.
      * exfalso. rewrite E in Hall. apply Forall_app in Hall as [_ Hall].
        inversion Hall as [|? ? H1 _]; subst. congruence.
Qed.

Example decoder_falls_back_to_latin1 :
  Decoder.read_as Decoder.utf_8 [x48; xe9] = None
  /\ Decoder.read_as Decoder.utf_8_sig [x48; xe9] = None
  /\ Decoder.read_content [x48; xe9] = inl [72; 233]%N
  /\ Decoder.read_content [x48; xc3; xa9] = inl [72; 233]%N.
Proof. repeat split. Qed.

Example decoder_cut_mark_reads_empty :
  Decoder.read_as Decoder.utf_8 [xef; xbb] = None
  /\ Decoder.read_as Decoder.utf_8_sig [xef; xbb] = Some []
  /\ Decoder.read_content [xef; xbb] = inl []
  /\ Decoder.read_content [xef; xbb; xbf; x41] = inl [65279; 65]%N
  /\ Decoder.read_content [xef; xbb; x41] = inl [239; 187; 65]%N.
Proof. repeat split. Qed.

(** ** Failure recovery and dropped blocks *)

(** The contact a run produces does not depend on the field set it starts
    from. *)
Lemma put_positional_fst (fields parts : list string)
    (name_of : string -> string) (c : contact) (fs fs' : fieldset) :
  fst (put_positional fields parts name_of (c, fs))
  = fst (put_positional fields parts name_of (c, fs')).
Proof.
  unfold put_positional. generalize (enumerate fields) as l. intros l.
  revert c fs fs'. induction l as [|[i field] l IH]; intros c fs fs'.
  - reflexivity.
  - cbn [fold_left fst snd].
    destruct (nth_error parts i) as [part|]; [|apply IH].
    destruct (truthy part); [|apply IH]. unfold put. cbn [fst snd]. apply IH.
Qed.

Lemma extract_fst (c : contact) (fs fs' : fieldset)
    (property_name value : string) (parameters : list string) :
  fst (_extract_field_data (c, fs) property_name value parameters)
  = fst (_extract_field_data (c, fs') property_name value parameters).
Proof.
  unfold _extract_field_data.
  repeat match goal with
         | |- context [if ?b then _ else _] => destruct b
         | |- context [match ?l with [] => _ | _ :: _ => _ end] => destruct l
         end;
    cbv zeta; try reflexivity; apply put_positional_fst.
Qed.

Lemma process_line_fst (c : contact) (fs fs' : fieldset) (line : string) :
  fst (process_line code_mapper (c, fs) line)
  = fst (process_line code_mapper (c, fs') line).
Proof.
  unfold process_line, line_body, code_mapper.
  repeat match goal with
         | |- context [if ?b then _ else _] => destruct b
         | |- context [match ?l with [] => _ | _ :: _ => _ end] => destruct l
         end;
    try reflexivity; apply extract_fst.
Qed.

Lemma process_lines_fst (lines : list string) (c : contact)
    (fs fs' : fieldset) :
  fst (process_lines code_mapper (c, fs) lines)
  = fst (process_lines code_mapper (c, fs') lines).
Proof.
  unfold process_lines. revert c fs fs'.
  induction lines as [|l lines IH]; intros c fs fs'; cbn [fold_left].
  - reflexivity.
  - pose proof (process_line_fst c fs fs' l) as E.
    destruct (process_line code_mapper (c, fs) l) as [c1 fs1].
    destruct (process_line code_mapper (c, fs') l) as [c2 fs2].
    cbn [fst] in E. subst c2. apply IH.
Qed.

Lemma parse_vcard_fst (fields : fieldset) (vcard_text : string) :
  fst (parse_vcard fields vcard_text) = fst (parse_vcard [] vcard_text).
Proof.
  unfold parse_vcard, parse_vcard_with. cbn [fst].
  now rewrite (process_lines_fst _ [] fields []).
Qed.

(** [parse_vcard] returns a contact only when it has a field. *)
Lemma parse_vcard_not_empty (fields : fieldset) (vcard_text : string) :
  fst (parse_vcard fields vcard_text) <> Some [].
Proof.
  unfold parse_vcard, parse_vcard_with. cbn [fst].
  destruct (fst (process_lines code_mapper _ _)); discriminate.
Qed.

(** The output sequence holds, in order, the records of the blocks that
    have one. *)
Lemma parse_blocks_contacts (vcards : list string) (p : parser) :
  contacts (parse_blocks p vcards) = contacts p ++ flat_map record_of vcards.
Proof.
  unfold parse_blocks, parse_blocks_with. revert p.
  induction vcards as [|b bs IH]; intros p; cbn [fold_left flat_map].
  - now rewrite app_nil_r.
  - rewrite IH. unfold parse_block. cbn [fst snd].
    pose proof (parse_vcard_not_empty (all_fields p) b) as NE.
    assert (R : record_of b
                = match fst (parse_vcard (all_fields p) b) with
                  | Some c => [c]
                  | None => []
                  end)
      by (unfold record_of; now rewrite <- (parse_vcard_fst (all_fields p) b)).
    rewrite R.
    destruct (fst (parse_vcard (all_fields p) b)) as [[|f c]|] eqn:E;
      cbn [contacts]; [now elim NE | | ]; now rewrite <- ?app_assoc.
Qed.

Section Recovery.

Variable mapper :
  parse_state -> string -> string -> list string -> parse_state * outcome.

Lemma process_lines_app (st : parse_state) (ls1 ls2 : list string) :
  process_lines mapper st (ls1 ++ ls2)
  = process_lines mapper (process_lines mapper st ls1) ls2.
Proof. unfold process_lines. apply fold_left_app. Qed.

Lemma process_line_raise (st st' : parse_state) (l : string) :
  reaches_try l = true ->
  line_body mapper st l = (st', Exception) ->
  process_line mapper st l = st'.
Proof.
  unfold reaches_try, process_line. rewrite !andb_true_iff, !negb_true_iff.
  intros [[[-> ->] ->] ->] ->. reflexivity.
Qed.

Lemma process_line_guarded (st : parse_state) (l : string) :
  reaches_try l = false -> process_line mapper st l = st.
Proof.
  unfold reaches_try, process_line.
  destruct (truthy l); [|reflexivity].
  destruct (startswith "BEGIN:VCARD" (upper l)); [reflexivity|].
  destruct (startswith "END:VCARD" (upper l)); [reflexivity|].
  cbn [negb andb orb]. now intros ->.
Qed.

Lemma nothing_contributed (st : parse_state) (lines : list string) :
  Forall (contributes_nothing mapper) lines ->
  process_lines mapper st lines = st.
Proof.
  unfold process_lines. intros H.
  induction H as [|l lines Hl _ IH]; cbn [fold_left]; [reflexivity|].
  now rewrite Hl.
Qed.

End Recovery.

Lemma always_raising_contributes_nothing
    (mapper : parse_state -> string -> string -> list string
              -> parse_state * outcome) (l : string) :
  (forall st p v ps, mapper st p v ps = (st, Exception)) ->
  contributes_nothing mapper l.
Proof.
  intros R st. unfold process_line, line_body.
  repeat match goal with
         | |- context [if ?b then _ else _] => destruct b
         | |- context [match ?x with [] => _ | _ :: _ => _ end] => destruct x
         end; try reflexivity; now rewrite R.
Qed.

Lemma parse_blocks_with_app
    (bp : fieldset -> string -> attempt (option contact) * fieldset)
    (p : parser) (bs1 bs2 : list string) :
  parse_blocks_with bp p (bs1 ++ bs2)
  = parse_blocks_with bp (parse_blocks_with bp p bs1) bs2.
Proof. unfold parse_blocks_with. apply fold_left_app. Qed.

Lemma length_flat_map_record_of (bs : list string) :
  Forall (fun b => record_of b <> []) bs ->
  List.length (flat_map record_of bs) = List.length bs.
Proof.
  intros H. induction H as [|b bs Hb _ IH]; [reflexivity|].
  cbn [flat_map]. rewrite length_app, IH. unfold record_of in *.
  destruct (fst (parse_vcard [] b)); [reflexivity | now elim Hb].
Qed.

(** C4.  (1) Whatever the field mapper does, a line on which it raises ends
    that line only: the loop goes on with the next line, from the contact
    as the raise left it.  (2) Whatever the block parser does, a block on
    which it raises adds no record, the records of the earlier blocks stay
    and the later blocks are parsed.  (3) A block whose lines contribute
    nothing, which is so for a line the guards skip and for every line
    when the mapper always raises, yields [None].  (4) The output holds, in
    order, the records of the blocks that have one, so a block without a
    record among blocks that all have one makes the output one shorter than
    the block list.  (5) Both on inputs: a mapper that raises on the second
    of three lines, a block parser that raises on the second of three
    blocks, and a document whose second block has only a line without colon
    and a line with an empty value. *)
Theorem failures_are_skipped :
  (forall mapper st ls1 l ls2 st',
      reaches_try l = true ->
      line_body mapper (process_lines mapper st ls1) l = (st', Exception) ->
      process_lines mapper st (ls1 ++ l :: ls2)
      = process_lines mapper st' ls2)
  /\ (forall bp p bs1 b bs2 fields',
        bp (all_fields (parse_blocks_with bp p bs1)) b = (Raises, fields') ->
        parse_blocks_with bp p (bs1 ++ b :: bs2)
        = parse_blocks_with bp
            (mkparser (contacts (parse_blocks_with bp p bs1)) fields') bs2)
  /\ (forall mapper fields vcard_text,
        Forall (contributes_nothing mapper)
               (unfold_lines (split LF (strip vcard_text))) ->
        parse_vcard_with mapper fields vcard_text = (None, fields))
  /\ (forall mapper l, reaches_try l = false -> contributes_nothing mapper l)
  /\ (forall mapper l,
        (forall st p v ps, mapper st p v ps = (st, Exception)) ->
        contributes_nothing mapper l)
  /\ (forall vcards,
        contacts (parse_blocks (mkparser [] []) vcards)
        = flat_map record_of vcards)
  /\ (forall bs1 b bs2,
        record_of b = [] ->
        Forall (fun b' => record_of b' <> []) (bs1 ++ bs2) ->
        List.length (contacts (parse_blocks (mkparser [] []) (bs1 ++ b :: bs2)))
        + 1 = List.length (bs1 ++ b :: bs2))
  /\ process_lines faulty_mapper ([], []) ["FN:A"; "BAD:x"; "NOTE:n"]
     = ([("Full Name", "A"); ("Notes", "n")], ["Full Name"; "Notes"])
  /\ contacts (parse_blocks_with faulty_block_parser (mkparser [] [])
                 [("BEGIN:VCARD" ++ nl ++ "FN:A" ++ nl ++ "END:VCARD")%string;
                  "BOOM";
                  ("BEGIN:VCARD" ++ nl ++ "FN:B" ++ nl ++ "END:VCARD")%string])
     = [[("Full Name", "A")]; [("Full Name", "B")]]
  /\ List.length (findall_vcards (normalize_newlines three_blocks)) = 3
  /\ contacts (parse_content three_blocks)
     = [[("Full Name", "A")]; [("Full Name", "B")]].
Proof.
  split; [|split; [|split; [|split; [|split; [|split; [|split]]]]]].
  - intros mapper st ls1 l ls2 st' Hg Hb.
    rewrite process_lines_app. unfold process_lines at 1. cbn [fold_left].
    now rewrite (process_line_raise mapper _ st' l Hg Hb).
  - intros bp p bs1 b bs2 fields' Hb.
    rewrite parse_blocks_with_app. unfold parse_blocks_with at 1.
    cbn [fold_left]. unfold parse_block at 2. now rewrite Hb.
  - intros mapper fields vcard_text H. unfold parse_vcard_with.
    now rewrite (nothing_contributed mapper _ _ H).
  - intros mapper l H st. now apply process_line_guarded.
  - exact always_raising_contributes_nothing.
  - intros vcards. now rewrite parse_blocks_contacts.
  - intros bs1 b bs2 Hb Hall. rewrite parse_blocks_contacts. cbn [contacts app].
    rewrite flat_map_app. cbn [flat_map]. rewrite Hb. cbn [app].
    rewrite <- flat_map_app, (length_flat_map_record_of _ Hall).
    rewrite !length_app. cbn [List.length]. lia.
  - repeat split; reflexivity.
Qed.

(** ** The splitter always has fuel enough *)

Lemma length_drop_le (n : nat) (s : string) :
  String.length (drop n s) <= String.length s.
Proof.
  revert s. induction n as [|n IH]; intros [|c s]; cbn [drop String.length];
    try lia.
  specialize (IH s). lia.
Qed.

Lemma find_end_shorter (s m rest : string) :
  find_end s = Some (m, rest) -> String.length rest <= String.length s.
Proof.
  revert m rest. induction s as [|c s IH]; intros m rest.
  - cbn. discriminate.
  - cbn [find_end]. destruct (startswith "END:VCARD" (upper (String c s))).
    + pose proof (length_drop_le 9 (String c s)) as L.
      remember (drop 9 (String c s)) as d9. remember (take 9 (String c s)) as t9.
      intros [= _ <-]. exact L.
    + destruct (find_end s) as [[m' r']|]; [|discriminate].
      intros [= _ <-]. specialize (IH m' r' eq_refl).
      cbn [String.length]. lia.
Qed.

(** Where the upper case of [s] starts with [p], a text without the
    letter S, the first characters of [s] are those of [p] one for one:
    no sharp s is among them. *)
Lemma upper_prefix (p s : string) :
  has_char "S" p = false ->
  startswith p (upper s) = true ->
  upper (take (String.length p) s) = p
  /\ String.length p <= String.length s.
Proof.
  revert s. induction p as [|a p IH]; intros s HS H.
  - split; [reflexivity | cbn [String.length]; lia].
  - cbn [has_char] in HS. apply orb_false_iff in HS as [Ha HS].
    destruct s as [|c s]; [discriminate H|].
    cbn [upper] in H. unfold upper_str in H.
    cbn [String.length take upper]. unfold upper_str.
    destruct (Ascii.eqb c sharp_s).
    + cbn [append startswith] in H. apply andb_true_iff in H as [E _].
      rewrite Ascii.eqb_sym in E. congruence.
    + cbn [append startswith] in H. apply andb_true_iff in H as [E H].
      apply Ascii.eqb_eq in E. subst a.
      destruct (IH s HS H) as [U L]. cbn [append]. rewrite U.
      split; [reflexivity | lia].
Qed.

Lemma length_drop (n : nat) (s : string) :
  n <= String.length s -> String.length (drop n s) = String.length s - n.
Proof.
  revert s. induction n as [|n IH]; intros [|c s]; cbn [drop String.length];
    try lia.
  intros H. apply IH. lia.
Qed.

(** With more rounds than the string has characters the search is
    complete: more fuel changes nothing. *)
Lemma findall_fuel_enough (n m : nat) (s : string) :
  String.length s < n -> String.length s < m ->
  findall_from n s = findall_from m s.
Proof.
  revert m s. induction n as [|n IH]; intros m s Hn Hm; [lia|].
  destruct m as [|m]; [lia|]. cbn [findall_from].
  assert (Next : match s with
                 | "" => []
                 | String _ s' => findall_from n s'
                 end
                 = match s with
                   | "" => []
                   | String _ s' => findall_from m s'
                   end).
  { destruct s as [|c s]; [reflexivity|]. cbn [String.length] in *.
    apply IH; lia. }
  destruct (startswith "BEGIN:VCARD" (upper s)) eqn:B; [|exact Next].
  destruct (find_end (drop 11 s)) as [[mt rest]|] eqn:F; [|exact Next].
  f_equal. apply find_end_shorter in F.
  apply (upper_prefix "BEGIN:VCARD" s eq_refl) in B as [_ B].
  cbn [String.length] in B.
  rewrite length_drop in F by lia. apply IH; lia.
Qed.

(* ================================================================== *)
(** * Further properties of the parser and its callers *)
(* ================================================================== *)

(** ** The field set and the record keys *)

Lemma fs_add_In (f g : string) (fs : fieldset) :
  In g (fs_add f fs) <-> g = f \/ In g fs.
Proof.
  unfold fs_add. destruct (fs_mem f fs) eqn:E.
  - apply fs_mem_In in E. intuition (subst; auto).
  - rewrite in_app_iff. cbn [In]. intuition auto.
Qed.

Lemma fs_add_NoDup (f : string) (fs : fieldset) :
  NoDup fs -> NoDup (fs_add f fs).
Proof.
  intros H. unfold fs_add. destruct (fs_mem f fs) eqn:E; [exact H|].
  apply NoDup_app; [exact H | repeat constructor; intros [] |].
  intros a Ha [<- | []]. apply fs_mem_In in Ha. congruence.
Qed.

Lemma dict_set_keys_In {V : Type} (k g : string) (v : V) (d : dict V) :
  In g (dict_keys (dict_set k v d)) <-> g = k \/ In g (dict_keys d).
Proof.
  rewrite dict_set_keys. destruct (fs_mem k (dict_keys d)) eqn:E.
  - apply fs_mem_In in E. intuition (subst; auto).
  - rewrite in_app_iff. cbn [In]. intuition auto.
Qed.

Lemma wrote_refl (st : parse_state) : wrote [] st st.
Proof. split; intros x; cbn [In]; tauto. Qed.

Lemma wrote_put (k v : string) (st : parse_state) :
  wrote [k] st (put k v st).
Proof.
  split; intros x; unfold put; cbn [fst snd In].
  - rewrite dict_set_keys_In. intuition auto.
  - rewrite fs_add_In. intuition auto.
Qed.

Lemma wrote_trans (W1 W2 : list string) (st1 st2 st3 : parse_state) :
  wrote W1 st1 st2 -> wrote W2 st2 st3 -> wrote (W1 ++ W2) st1 st3.
Proof.
  intros [K1 F1] [K2 F2]. split; intros x; rewrite in_app_iff.
  - rewrite K2, K1. tauto.
  - rewrite F2, F1. tauto.
Qed.

Lemma wrote_positional (fields parts : list string)
    (name_of : string -> string) (st : parse_state) :
  exists W, wrote W st (put_positional fields parts name_of st).
Proof.
  unfold put_positional. generalize (enumerate fields) as l. intros l.
  revert st. induction l as [|[i field] l IH]; intros st.
  - exists []. apply wrote_refl.
  - cbn [fold_left fst snd].
    destruct (nth_error parts i) as [part|]; [|apply IH].
    destruct (truthy part); [|apply IH].
    destruct (IH (put (name_of field) part st)) as [W HW].
    exists ([name_of field] ++ W).
    eapply wrote_trans; [apply wrote_put | exact HW].
Qed.

Lemma wrote_extract (st : parse_state) (property_name value : string)
    (parameters : list string) :
  exists W,
    wrote W st (_extract_field_data st property_name value parameters).
Proof.
  unfold _extract_field_data.
  repeat match goal with
         | |- context [if ?b then _ else _] => destruct b
         | |- context [match ?l with [] => _ | _ :: _ => _ end] => destruct l
         end;
    cbv zeta;
    try apply wrote_positional;
    try (eexists; apply wrote_put);
    try (eexists; eapply wrote_trans; apply wrote_put).
Qed.

Lemma wrote_process_line (st : parse_state) (line : string) :
  exists W, wrote W st (process_line code_mapper st line).
Proof.
  unfold process_line, line_body, code_mapper.
  repeat match goal with
         | |- context [if ?b then _ else _] => destruct b
         | |- context [match ?l with [] => _ | _ :: _ => _ end] => destruct l
         end;
    try (exists []; apply wrote_refl); apply wrote_extract.
Qed.

Lemma wrote_process_lines (lines : list string) (st : parse_state) :
  exists W, wrote W st (process_lines code_mapper st lines).
Proof.
  unfold process_lines. revert st.
  induction lines as [|l lines IH]; intros st; cbn [fold_left].
  - exists []. apply wrote_refl.
  - destruct (wrote_process_line st l) as [W1 H1].
    destruct (IH (process_line code_mapper st l)) as [W2 H2].
    exists (W1 ++ W2). eapply wrote_trans; eassumption.
Qed.

(** What one block adds to the field set is the keys of its record. *)
Lemma parse_vcard_fields (fields : fieldset) (vcard : string) (f : string) :
  In f (snd (parse_vcard fields vcard))
  <-> In f fields \/ In f (record_keys (record_of vcard)).
Proof.
  unfold record_of. rewrite <- (parse_vcard_fst fields vcard).
  unfold parse_vcard, parse_vcard_with. cbn [fst snd].
  destruct (wrote_process_lines
              (unfold_lines (split LF (strip vcard))) ([], fields))
    as [W [K F]].
  cbn [fst snd dict_keys map In] in K, F. rewrite F.
  destruct (fst (process_lines code_mapper ([], fields) _)) as [|kv c] eqn:E.
  - cbn [record_keys flat_map In]. specialize (K f).
    cbn [dict_keys map In] in K. tauto.
  - unfold record_keys. cbn [flat_map]. rewrite app_nil_r.
    specialize (K f). tauto.
Qed.

Lemma parse_blocks_fields (vcards : list string) (p : parser) (f : string) :
  In f (all_fields (parse_blocks p vcards))
  <-> In f (all_fields p) \/ In f (record_keys (flat_map record_of vcards)).
Proof.
  unfold parse_blocks, parse_blocks_with. revert p.
  induction vcards as [|b bs IH]; intros p; cbn [fold_left flat_map].
  - cbn [record_keys flat_map In]. tauto.
  - rewrite IH. unfold record_keys. rewrite flat_map_app, in_app_iff.
    fold (record_keys (record_of b)).
    fold (record_keys (flat_map record_of bs)).
    assert (A : In f (all_fields
                        (parse_block
                           (fun fields vcard =>
                              (Returns (fst (parse_vcard fields vcard)),
                               snd (parse_vcard fields vcard))) p b))
                <-> In f (snd (parse_vcard (all_fields p) b))).
    { unfold parse_block. cbn [fst snd].
      destruct (fst (parse_vcard (all_fields p) b)) as [[|kv c]|];
        reflexivity. }
    rewrite A, parse_vcard_fields. tauto.
Qed.

Lemma distinct_put (k v : string) (st : parse_state) :
  distinct_names st -> distinct_names (put k v st).
Proof.
  intros [K F]. split; unfold put; cbn [fst snd].
  - now apply dict_set_NoDup.
  - now apply fs_add_NoDup.
Qed.

Lemma distinct_positional (fields parts : list string)
    (name_of : string -> string) (st : parse_state) :
  distinct_names st ->
  distinct_names (put_positional fields parts name_of st).
Proof.
  unfold put_positional. generalize (enumerate fields) as l. intros l.
  revert st. induction l as [|[i field] l IH]; intros st H; [exact H|].
  cbn [fold_left fst snd]. apply IH.
  destruct (nth_error parts i) as [part|]; [|exact H].
  destruct (truthy part); [now apply distinct_put | exact H].
Qed.

Lemma distinct_extract (st : parse_state) (property_name value : string)
    (parameters : list string) :
  distinct_names st ->
  distinct_names (_extract_field_data st property_name value parameters).
Proof.
  intros H. unfold _extract_field_data.
  repeat match goal with
         | |- context [if ?b then _ else _] => destruct b
         | |- context [match ?l with [] => _ | _ :: _ => _ end] => destruct l
         end;
    cbv zeta;
    repeat first [ exact H
                 | apply distinct_positional
                 | apply distinct_put ].
Qed.

Lemma distinct_process_line (st : parse_state) (line : string) :
  distinct_names st -> distinct_names (process_line code_mapper st line).
Proof.
  intros H. unfold process_line, line_body, code_mapper.
  repeat match goal with
         | |- context [if ?b then _ else _] => destruct b
         | |- context [match ?l with [] => _ | _ :: _ => _ end] => destruct l
         end;
    try exact H; now apply distinct_extract.
Qed.

Lemma distinct_process_lines (lines : list string) (st : parse_state) :
  distinct_names st -> distinct_names (process_lines code_mapper st lines).
Proof.
  unfold process_lines. revert st.
  induction lines as [|l lines IH]; intros st H; cbn [fold_left]; [exact H|].
  apply IH. now apply distinct_process_line.
Qed.

Lemma record_of_distinct (vcard : string) (c : contact) :
  In c (record_of vcard) -> c <> [] /\ NoDup (dict_keys c).
Proof.
  unfold record_of, parse_vcard, parse_vcard_with. cbn [fst].
  match goal with
  | |- context [process_lines ?m ?s ?l] =>
      pose proof (distinct_process_lines l s) as D;
      destruct (process_lines m s l) as [[|kv c'] fs]
  end; cbn [fst In]; [intros []|].
  intros [<- | []]. split; [discriminate|].
  apply D. split; constructor.
Qed.

Lemma parse_vcard_fields_NoDup (fields : fieldset) (vcard : string) :
  NoDup fields -> NoDup (snd (parse_vcard fields vcard)).
Proof.
  intros H. unfold parse_vcard, parse_vcard_with. cbn [snd].
  apply distinct_process_lines. split; [constructor | exact H].
Qed.

Lemma parse_blocks_fields_NoDup (vcards : list string) (p : parser) :
  NoDup (all_fields p) -> NoDup (all_fields (parse_blocks p vcards)).
Proof.
  unfold parse_blocks, parse_blocks_with. revert p.
  induction vcards as [|b bs IH]; intros p H; cbn [fold_left]; [exact H|].
  apply IH. unfold parse_block. cbn [fst snd].
  destruct (fst (parse_vcard (all_fields p) b)) as [[|kv c]|];
    cbn [all_fields]; now apply parse_vcard_fields_NoDup.
Qed.

(** X1.  Once a document is parsed, the field set holds exactly the field
    names that are keys of some emitted record: every column has a record
    that fills it and every key has its column. *)
Theorem field_set_is_union_of_record_keys (content f : string) :
  In f (all_fields (parse_content content))
  <-> exists c, In c (contacts (parse_content content))
                /\ In f (dict_keys c).
Proof.
  unfold parse_content. rewrite parse_blocks_fields, parse_blocks_contacts.
  cbn [all_fields contacts app In]. unfold record_keys.
  rewrite in_flat_map. tauto.
Qed.

(** X2.  Every record the parser emits has at least one field and no field
    name twice. *)
Theorem emitted_records_are_nonempty_and_keyed (content : string) :
  Forall (fun c => c <> [] /\ NoDup (dict_keys c))
         (contacts (parse_content content)).
Proof.
  unfold parse_content. rewrite parse_blocks_contacts. cbn [contacts app].
  apply Forall_forall. intros c Hc.
  apply in_flat_map in Hc as (b & _ & Hc). now apply record_of_distinct in Hc.
Qed.

(** X3.  Parsing a list of blocks is parsing its two halves side by side:
    the records of the whole are the records of the first half followed by
    those of the second, and the field set of the whole is the union of the
    two field sets. *)
Theorem parse_blocks_splits (bs1 bs2 : list string) :
  contacts (parse_blocks (mkparser [] []) (bs1 ++ bs2))
  = contacts (parse_blocks (mkparser [] []) bs1)
    ++ contacts (parse_blocks (mkparser [] []) bs2)
  /\ (forall f,
        In f (all_fields (parse_blocks (mkparser [] []) (bs1 ++ bs2)))
        <-> In f (all_fields (parse_blocks (mkparser [] []) bs1))
            \/ In f (all_fields (parse_blocks (mkparser [] []) bs2))).
Proof.
  split.
  - rewrite !parse_blocks_contacts. cbn [contacts app]. apply flat_map_app.
  - intros f. rewrite !parse_blocks_fields. cbn [all_fields In].
    unfold record_keys. rewrite !flat_map_app, in_app_iff. tauto.
Qed.

(** ** The sorted field list *)

Lemma insert_sorted_perm (x : string) (l : list string) :
  Permutation (x :: l) (insert_sorted x l).
Proof.
  induction l as [|y l IH]; cbn [insert_sorted]; [reflexivity|].
  destruct (String.leb y x); [|reflexivity].
  rewrite perm_swap. now constructor.
Qed.

Lemma insert_sorted_HdRel (a x : string) (l : list string) :
  leb_rel a x -> HdRel leb_rel a l -> HdRel leb_rel a (insert_sorted x l).
Proof.
  intros Hax H. destruct l as [|y l]; cbn [insert_sorted].
  - now constructor.
  - destruct (String.leb y x); constructor; [now inversion H | exact Hax].
Qed.

Lemma insert_sorted_Sorted (x : string) (l : list string) :
  Sorted leb_rel l -> Sorted leb_rel (insert_sorted x l).
Proof.
  induction l as [|y l IH]; intros H; cbn [insert_sorted].
  - repeat constructor.
  - inversion H as [|? ? Hs Hh]; subst.
    destruct (String.leb y x) eqn:E.
    + constructor; [now apply IH | now apply insert_sorted_HdRel].
    + constructor; [exact H|]. constructor. unfold leb_rel.
      destruct (String.leb_total x y) as [T | T]; [exact T | congruence].
Qed.

Lemma sorted_from (l acc : list string) :
  Sorted leb_rel acc ->
  Sorted leb_rel (fold_left (fun acc x => insert_sorted x acc) l acc)
  /\ Permutation (acc ++ l)
                 (fold_left (fun acc x => insert_sorted x acc) l acc).
Proof.
  revert acc. induction l as [|x l IH]; intros acc H; cbn [fold_left].
  - rewrite app_nil_r. now split.
  - destruct (IH (insert_sorted x acc) (insert_sorted_Sorted x acc H))
      as [S P].
    split; [exact S|]. rewrite <- P.
    rewrite <- (insert_sorted_perm x acc).
    symmetry. apply Permutation_middle.
Qed.

Lemma sorted_spec (l : list string) :
  Sorted leb_rel (sorted l) /\ Permutation l (sorted l).
Proof. apply (sorted_from l []). constructor. Qed.

(** X4.  The field list offered for column selection is in ascending
    order, holds no name twice, and holds exactly the field names that are
    keys of some emitted record. *)
Theorem field_list_sorted_and_exact (content : string) :
  let p := parse_content content in
  Sorted leb_rel (get_all_fields p)
  /\ NoDup (get_all_fields p)
  /\ (forall f, In f (get_all_fields p)
                <-> exists c, In c (contacts p) /\ In f (dict_keys c)).
Proof.
  intros p. unfold get_all_fields.
  destruct (sorted_spec (all_fields p)) as [S P]. split; [exact S|]. split.
  - eapply Permutation_NoDup; [exact P|]. subst p. unfold parse_content.
    apply parse_blocks_fields_NoDup. constructor.
  - intros f. split.
    + intros H. apply (Permutation_in f (Permutation_sym P)) in H.
      subst p. unfold parse_content in *.
      rewrite parse_blocks_fields in H. rewrite parse_blocks_contacts.
      cbn [all_fields contacts app In] in *. unfold record_keys in H.
      apply in_flat_map. tauto.
    + intros H. apply (Permutation_in f P).
      subst p. unfold parse_content in *.
      rewrite parse_blocks_fields. rewrite parse_blocks_contacts in H.
      cbn [all_fields contacts app In] in *. unfold record_keys.
      right. now apply in_flat_map.
Qed.

(** ** Stripping and unfolding twice *)

Lemma rstrip_idem (s : string) : rstrip (rstrip s) = rstrip s.
Proof.
  induction s as [|c s IH]; [reflexivity|]. cbn [rstrip].
  destruct (rstrip s) as [|d r] eqn:E.
  - destruct (is_space c) eqn:Hc; [reflexivity|]. cbn [rstrip]. now rewrite Hc.
  - cbn [rstrip]. cbn [rstrip] in IH. now rewrite IH.
Qed.

Lemma strip_idem (s : string) : strip (strip s) = strip s.
Proof.
  unfold strip. destruct (lstrip_head s) as [E | (c & r & E & Hc)]; rewrite E.
  - reflexivity.
  - destruct (rstrip_head c r Hc) as [r' Hr]. rewrite Hr.
    cbn [lstrip]. rewrite Hc, <- Hr. apply rstrip_idem.
Qed.

Lemma filter_strip_idem (lines : list string) :
  filter truthy (map strip (filter truthy (map strip lines)))
  = filter truthy (map strip lines).
Proof.
  induction lines as [|l lines IH]; [reflexivity|]. cbn [map filter].
  destruct (truthy (strip l)) eqn:E; [|exact IH].
  cbn [map filter]. now rewrite strip_idem, E, IH.
Qed.

(** X5.  The logical lines the unfolder yields are not empty and carry no
    white space at either end, and unfolding them again gives the same
    lines. *)
Theorem unfold_lines_idempotent (lines : list string) :
  unfold_lines (unfold_lines lines) = unfold_lines lines
  /\ Forall (fun l => l <> "" /\ strip l = l) (unfold_lines lines).
Proof.
  rewrite !unfold_lines_strips. split; [apply filter_strip_idem|].
  apply Forall_forall. intros l Hl. apply filter_In in Hl as [Hl T].
  apply in_map_iff in Hl as (l0 & <- & _). split.
  - intros E. rewrite E in T. discriminate T.
  - apply strip_idem.
Qed.

(** ** Line endings *)

Lemma replace_char_removes (a b : ascii) (s : string) :
  a <> b -> has_char a (replace_char a b s) = false.
Proof.
  intros N. unfold replace_char.
  induction s as [|c s IH]; [reflexivity|]. cbn [map_chars has_char].
  rewrite IH, orb_false_r. destruct (Ascii.eqb_spec c a) as [-> | Hc].
  - now apply Ascii.eqb_neq.
  - apply Ascii.eqb_neq. congruence.
Qed.

Lemma replace_char_absent (a b : ascii) (s : string) :
  has_char a s = false -> replace_char a b s = s.
Proof.
  unfold replace_char. induction s as [|c s IH]; [reflexivity|].
  cbn [map_chars has_char]. intros H. apply orb_false_iff in H as [Hc Hs].
  rewrite (IH Hs). rewrite Ascii.eqb_sym in Hc. now rewrite Hc.
Qed.

Lemma replace2_absent (a1 a2 : ascii) (r s : string) :
  has_char a1 s = false -> replace2 a1 a2 r s = s.
Proof.
  induction s as [|c s IH]; [reflexivity|].
  cbn [has_char]. intros H. apply orb_false_iff in H as [Hc Hs].
  cbn [replace2]. destruct s as [|d s]; [reflexivity|].
  rewrite Ascii.eqb_sym in Hc. rewrite Hc. cbn [andb].
  now rewrite (IH Hs).
Qed.

(** X6.  After the line endings are normalized the content holds no
    carriage return; a content without carriage returns is left as it is;
    so normalizing twice is normalizing once. *)
Theorem normalize_newlines_no_cr (content : string) :
  has_char CR (normalize_newlines content) = false
  /\ (has_char CR content = false -> normalize_newlines content = content)
  /\ normalize_newlines (normalize_newlines content)
     = normalize_newlines content.
Proof.
  assert (A : has_char CR (normalize_newlines content) = false)
    by (apply replace_char_removes; discriminate).
  assert (B : forall s, has_char CR s = false -> normalize_newlines s = s).
  { intros s H. unfold normalize_newlines.
    now rewrite (replace2_absent CR LF nl s H), (replace_char_absent CR LF s H). }
  split; [exact A|]. split; [apply B|]. now apply B.
Qed.

(** ** The blocks of the splitter *)

Lemma take_drop (n : nat) (s : string) : (take n s ++ drop n s)%string = s.
Proof.
  revert s. induction n as [|n IH]; intros [|c s]; cbn [take drop append];
    try reflexivity.
  now rewrite IH.
Qed.

Lemma find_end_spec (s m rest : string) :
  find_end s = Some (m, rest) ->
  s = (m ++ rest)%string
  /\ exists body tail, m = (body ++ tail)%string /\ upper tail = "END:VCARD".
Proof.
  revert m rest. induction s as [|c s IH]; intros m rest.
  - cbn. discriminate.
  - cbn [find_end].
    destruct (startswith "END:VCARD" (upper (String c s))) eqn:E.
    + pose proof (take_drop 9 (String c s)) as TD.
      apply (upper_prefix "END:VCARD" _ eq_refl) in E as [E _].
      change (String.length "END:VCARD") with 9 in E.
      remember (drop 9 (String c s)) as d9.
      remember (take 9 (String c s)) as t9.
      intros [= <- <-]. split; [now symmetry|].
      exists "", t9. split; [reflexivity | exact E].
    + destruct (find_end s) as [[m' r']|]; [|discriminate].
      intros [= <- <-]. destruct (IH m' r' eq_refl) as (-> & body & tail & -> & T).
      split; [reflexivity|]. exists (String c body), tail. now split.
Qed.

Lemma findall_from_spec (fuel : nat) (s : string) :
  (exists gaps,
      List.length gaps = S (List.length (findall_from fuel s))
      /\ s = interleave gaps (findall_from fuel s))
  /\ Forall vcard_block (findall_from fuel s).
Proof.
  revert s. induction fuel as [|fuel IH]; intros s; cbn [findall_from].
  - split; [|constructor]. now exists [s].
  - assert (Next :
      let r := match s with
               | "" => []
               | String _ s' => findall_from fuel s'
               end in
      (exists gaps, List.length gaps = S (List.length r)
                    /\ s = interleave gaps r)
      /\ Forall vcard_block r).
    { destruct s as [|c s]; cbv zeta.
      - split; [|constructor]. now exists [""].
      - destruct (IH s) as [(gaps & L & E) F]. split; [|exact F].
        destruct gaps as [|g gaps]; [discriminate L|].
        exists (String c g :: gaps). split; [exact L|].
        rewrite E at 1.
        destruct (findall_from fuel s); reflexivity. }
    destruct (startswith "BEGIN:VCARD" (upper s)) eqn:B; [|exact Next].
    destruct (find_end (drop 11 s)) as [[m rest]|] eqn:F; [|exact Next].
    clear Next. destruct (find_end_spec _ _ _ F) as (D & body & tail & -> & T).
    destruct (IH rest) as [(gaps & L & E) Fb].
    apply (upper_prefix "BEGIN:VCARD" _ eq_refl) in B as [B _].
    change (String.length "BEGIN:VCARD") with 11 in B.
    pose proof (take_drop 11 s) as TD. rewrite D in TD.
    remember (take 11 s) as head. split.
    + exists ("" :: gaps). split; [cbn [List.length]; now rewrite L|].
      cbn [interleave append]. rewrite <- E, <- TD.
      now rewrite !append_assoc.
    + constructor; [|exact Fb]. now exists head, body, tail.
Qed.

(** X7.  The blocks the splitter finds lie in the content in their order,
    one after the other without overlap, with the rest of the content
    between them; each starts with [BEGIN:VCARD] and ends with [END:VCARD]
    in any letter case. *)
Theorem findall_vcards_decomposition (content : string) :
  (exists gaps,
      List.length gaps = S (List.length (findall_vcards content))
      /\ content = interleave gaps (findall_vcards content))
  /\ Forall vcard_block (findall_vcards content).
Proof. apply findall_from_spec. Qed.

(** ** The file-name gate *)

Lemma rsplit1_no_sep (sep : ascii) (s : string) :
  has_char sep s = false -> rsplit1 sep s = [s].
Proof.
  induction s as [|c s IH]; [reflexivity|].
  cbn [has_char rsplit1]. intros H. apply orb_false_iff in H as [Hc Hs].
  rewrite (IH Hs). rewrite Ascii.eqb_sym in Hc. now rewrite Hc.
Qed.

Lemma rsplit1_last (sep : ascii) (h t : string) :
  has_char sep t = false -> rsplit1 sep (h ++ String sep t) = [h; t].
Proof.
  intros Ht. induction h as [|c h IH]; cbn [append rsplit1].
  - rewrite (rsplit1_no_sep sep t Ht). now rewrite Ascii.eqb_refl.
  - now rewrite IH.
Qed.

Lemma rsplit1_sep (sep : ascii) (s : string) :
  has_char sep s = true ->
  exists h t, s = (h ++ String sep t)%string /\ has_char sep t = false.
Proof.
  induction s as [|c s IH]; [discriminate|].
  cbn [has_char]. intros H. destruct (has_char sep s) eqn:Hs.
  - destruct (IH eq_refl) as (h & t & -> & Ht). now exists (String c h), t.
  - rewrite orb_false_r in H. apply Ascii.eqb_eq in H. subst c.
    now exists "", s.
Qed.

(** X8.  The file-name gate never fails on its subscript, and it accepts
    exactly the names whose text after the last dot is [vcf] in any letter
    case: a name without a dot is refused, and so is a name whose last
    extension is something else. *)
Theorem allowed_file_spec (filename : string) :
  (exists b, allowed_file filename = Some b)
  /\ (allowed_file filename = Some true
      <-> exists base ext,
            filename = (base ++ String "." ext)%string
            /\ has_char "." ext = false
            /\ lower ext = "vcf").
Proof.
  unfold allowed_file. destruct (has_char "." filename) eqn:H.
  - destruct (rsplit1_sep "." filename H) as (h & t & -> & Ht).
    rewrite (rsplit1_last "." h t Ht). cbn [nth_error]. split; [eauto|].
    split.
    + intros [= E]. apply String.eqb_eq in E. now exists h, t.
    + intros (base & ext & E & Hext & L).
      assert (R : rsplit1 "." (h ++ String "." t) = [base; ext])
        by (rewrite E; now apply rsplit1_last).
      rewrite (rsplit1_last "." h t Ht) in R. injection R as _ ->.
      f_equal. now apply String.eqb_eq.
  - split; [eauto|]. split; [discriminate|].
    intros (base & ext & -> & _). exfalso.
    rewrite DateFacts.has_char_app in H. cbn [has_char] in H.
    rewrite Ascii.eqb_refl in H. cbn [orb] in H.
    now rewrite orb_true_r in H.
Qed.

(** ** Export rows *)

Lemma filtered_from (selected : list string) (c acc : contact) (f : string) :
  dict_get f
    (fold_left
       (fun filtered field =>
          dict_set field
            (match dict_get field c with Some v => v | None => "" end)
            filtered)
       selected acc)
  = if fs_mem f selected
    then Some (match dict_get f c with Some v => v | None => "" end)
    else dict_get f acc.
Proof.
  revert acc. induction selected as [|x sel IH]; intros acc;
    cbn [fold_left]; [reflexivity|].
  rewrite IH, dict_get_set. unfold fs_mem. cbn [existsb].
  destruct (existsb (String.eqb f) sel); [now rewrite orb_true_r|].
  rewrite orb_false_r. destruct (String.eqb_spec f x) as [-> | _]; reflexivity.
Qed.

Lemma filtered_keys_from (selected : list string) (c acc : contact) :
  NoDup (dict_keys acc) ->
  NoDup (dict_keys
           (fold_left
              (fun filtered field =>
                 dict_set field
                   (match dict_get field c with Some v => v | None => "" end)
                   filtered)
              selected acc)).
Proof.
  revert acc. induction selected as [|x sel IH]; intros acc H;
    cbn [fold_left]; [exact H|].
  apply IH. now apply dict_set_NoDup.
Qed.

(** X9.  An export row has one cell for each selected field and nothing
    else: the cell holds the record's value for the field, and the empty
    string when the record lacks the field.  The rows are as many as the
    records. *)
Theorem export_row_cells (selected : list string) (c : contact) (f : string) :
  dict_get f (filtered_contact selected c)
  = (if fs_mem f selected
     then Some (match dict_get f c with Some v => v | None => "" end)
     else None)
  /\ NoDup (dict_keys (filtered_contact selected c))
  /\ (forall cs, List.length (export_rows selected cs) = List.length cs).
Proof.
  split; [apply filtered_from|]. split.
  - apply filtered_keys_from. constructor.
  - intros cs. unfold export_rows. destruct selected; [reflexivity|].
    apply length_map.
Qed.

(** ** Which encodings the decoder can end on *)

Lemma decode_utf8_bom (r : list N) :
  Decoder.decode_utf8 (239 :: 187 :: 191 :: r)%N
  = option_map (cons 65279%N) (Decoder.decode_utf8 r).
Proof. reflexivity. Qed.

Lemma decode_utf8_sig_cases (bs : list N) :
  (Decoder.decode_utf8_sig bs = Decoder.decode_utf8 bs
   /\ cut_mark bs = false)
  \/ (exists r, bs = (239 :: 187 :: 191 :: r)%N
                /\ Decoder.decode_utf8_sig bs = Decoder.decode_utf8 r
                /\ cut_mark bs = false)
  \/ (cut_mark bs = true /\ Decoder.decode_utf8_sig bs = Some []).
Proof.
  destruct bs as [|b0 [|b1 [|b2 r]]]; try (left; split; reflexivity).
  - destruct b0 as [|p]; [left; split; reflexivity|].
    do 8 (try (destruct p as [p|p|]; try (left; split; reflexivity))).
    right. right. split; reflexivity.
  - destruct b0 as [|p]; [left; split; reflexivity|].
    do 8 (try (destruct p as [p|p|]; try (left; split; reflexivity))).
    destruct b1 as [|p]; [left; split; reflexivity|].
    do 8 (try (destruct p as [p|p|]; try (left; split; reflexivity))).
    right. right. split; reflexivity.
  - destruct b0 as [|p]; [left; split; reflexivity|].
    do 8 (try (destruct p as [p|p|]; try (left; split; reflexivity))).
    destruct b1 as [|p]; [left; split; reflexivity|].
    do 8 (try (destruct p as [p|p|]; try (left; split; reflexivity))).
    destruct b2 as [|p]; [left; split; reflexivity|].
    do 8 (try (destruct p as [p|p|]; try (left; split; reflexivity))).
    right. left. exists r. repeat split.
Qed.

(** Where UTF-8 fails, UTF-8 with byte-order mark fails too, unless the
    file is a mark cut short. *)
Lemma utf8_sig_after_utf8 (file : list byte) :
  Decoder.read_as Decoder.utf_8 file = None ->
  Decoder.read_as Decoder.utf_8_sig file
  = if cut_mark (map Byte.to_N file) then Some [] else None.
Proof.
  unfold Decoder.read_as. cbn [Decoder.decode].
  destruct (Decoder.decode_utf8 (map Byte.to_N file)) as [t|] eqn:E;
    [discriminate|]. intros _.
  destruct (decode_utf8_sig_cases (map Byte.to_N file))
    as [[-> ->] | [(r & Hr & -> & ->) | [-> ->]]].
  - now rewrite E.
  - rewrite Hr, decode_utf8_bom in E.
    destruct (Decoder.decode_utf8 r); [discriminate E | reflexivity].
  - reflexivity.
Qed.

(** X10.  The decoding stage never raises, and Windows-1252 and ISO-8859-1
    never decide the content.  The content is the UTF-8 reading of the file
    when the file is valid UTF-8.  Otherwise it is the Latin-1 reading of
    the file, but for a file that is a byte-order mark cut short (its first
    byte, or its first two): that file reads as the empty text, decided by
    UTF-8 with byte-order mark, which decides the content in no other
    case. *)
Theorem decoder_deciding_candidate (file : list byte) :
  Decoder.read_content file
  = inl (match Decoder.read_as Decoder.utf_8 file with
         | Some content => content
         | None =>
             if cut_mark (map Byte.to_N file) then []
             else Decoder.universal_newlines (map Byte.to_N file)
         end)
  /\ (cut_mark (map Byte.to_N file) = true
      <-> file = [xef] \/ file = [xef; xbb]).
Proof.
  split.
  - unfold Decoder.read_content, Decoder.encodings.
    cbn [Decoder.first_decoding].
    destruct (Decoder.read_as Decoder.utf_8 file) as [c|] eqn:E;
      [reflexivity|].
    rewrite (utf8_sig_after_utf8 file E).
    destruct (cut_mark (map Byte.to_N file)); reflexivity.
  - split.
    + destruct file as [|b0 [|b1 [|b2 r]]]; cbn [map]; try discriminate.
      * destruct b0; try discriminate. now left.
      * destruct b0; try discriminate; destruct b1; try discriminate.
        now right.
      * destruct b0; try discriminate; destruct b1; discriminate.
    + intros [-> | ->]; reflexivity.
Qed.

(** ** Letter case of the property part *)

(** X11.  The property part of a line is read without regard to letter
    case: a line and the line with its property name and parameters in
    upper case are mapped alike. *)
Theorem property_part_case_insensitive (st : parse_state) (pp v : string) :
  has_char ":" pp = false ->
  process_line code_mapper st (pp ++ String ":" v)
  = process_line code_mapper st (upper pp ++ String ":" v).
Proof. apply process_line_upper_part. Qed.

(** A lower-case [tel;cell] line is mapped as [TEL;CELL]. *)
Lemma property_part_case_insensitive_witness :
  process_line code_mapper ([], []) "tel;cell:555"
  = process_line code_mapper ([], []) "TEL;CELL:555".
Proof.
  apply (property_part_case_insensitive ([], []) "tel;cell" "555").
  reflexivity.
Defined.

(** ** Positional parts of N and ADR *)

Lemma positional_other (fields parts : list string)
    (name_of : string -> string) (k : nat) (st : parse_state) (g : string) :
  ~ In g (map name_of fields) ->
  dict_get g
    (fst (fold_left
            (fun st (ifield : nat * string) =>
               match nth_error parts (fst ifield) with
               | Some part =>
                   if truthy part then put (name_of (snd ifield)) part st
                   else st
               | None => st
               end)
            (combine (seq k (List.length fields)) fields) st))
  = dict_get g (fst st).
Proof.
  revert k st. induction fields as [|f0 fs IH]; intros k st H;
    cbn [List.length seq combine fold_left fst snd]; [reflexivity|].
  cbn [map In] in H. rewrite IH by tauto.
  destruct (nth_error parts k) as [p|]; [|reflexivity].
  destruct (truthy p); [|reflexivity].
  unfold put. cbn [fst]. rewrite dict_get_set.
  destruct (String.eqb_spec g (name_of f0)) as [-> | _]; [tauto | reflexivity].
Qed.

Lemma positional_at (fields parts : list string)
    (name_of : string -> string) (k : nat) (st : parse_state)
    (j : nat) (field : string) :
  NoDup (map name_of fields) ->
  nth_error fields j = Some field ->
  dict_get (name_of field)
    (fst (fold_left
            (fun st (ifield : nat * string) =>
               match nth_error parts (fst ifield) with
               | Some part =>
                   if truthy part then put (name_of (snd ifield)) part st
                   else st
               | None => st
               end)
            (combine (seq k (List.length fields)) fields) st))
  = match nth_error parts (k + j) with
    | Some part =>
        if truthy part then Some part else dict_get (name_of field) (fst st)
    | None => dict_get (name_of field) (fst st)
    end.
Proof.
  revert k st j. induction fields as [|f0 fs IH]; intros k st j ND Hj.
  - destruct j; discriminate Hj.
  - cbn [map] in ND. inversion ND as [|? ? Hnot ND']; subst.
    cbn [List.length seq combine fold_left fst snd].
    destruct j as [|j].
    + cbn [nth_error] in Hj. injection Hj as ->.
      rewrite positional_other by exact Hnot. rewrite Nat.add_0_r.
      destruct (nth_error parts k) as [p|]; [|reflexivity].
      destruct (truthy p); [|reflexivity].
      unfold put. cbn [fst]. now rewrite dict_get_set, String.eqb_refl.
    + cbn [nth_error] in Hj. rewrite (IH (S k) _ j ND' Hj).
      replace (S k + j) with (k + S j) by lia.
      assert (Ne : name_of field <> name_of f0).
      { intros E. apply Hnot. rewrite <- E. apply in_map.
        now apply nth_error_In in Hj. }
      destruct (nth_error parts k) as [p|]; [|reflexivity].
      destruct (truthy p); [|reflexivity].
      unfold put. cbn [fst]. rewrite dict_get_set.
      destruct (String.eqb_spec (name_of field) (name_of f0)) as [E | _];
        [contradiction | reflexivity].
Qed.

Lemma address_type_cases (parameters : list string) :
  In (_get_address_type parameters) ["Home"; "Work"; "Address"].
Proof.
  unfold _get_address_type.
  induction parameters as [|p ps IH]; cbn [first_mapped].
  - cbn [In]. tauto.
  - unfold address_type_mapping at 1. cbn [dict_get].
    destruct (String.eqb p "HOME"); [cbn [In]; tauto|].
    destruct (String.eqb p "WORK"); [cbn [In]; tauto|]. exact IH.
Qed.

(** X12.  The parts of an N value go to the name fields by position: part
    [i], stripped, is stored under the [i]-th of Last Name, First Name,
    Middle Name, Name Prefix, Name Suffix when it is not empty; an empty or
    missing part leaves that field as it was. *)
Theorem name_parts_by_position (st : parse_state) (value : string)
    (parameters : list string) (i : nat) (field : string) :
  nth_error name_fields i = Some field ->
  dict_get field (fst (_extract_field_data st "N" value parameters))
  = match nth_error (map strip (split ";" value)) i with
    | Some part => if truthy part then Some part else dict_get field (fst st)
    | None => dict_get field (fst st)
    end.
Proof.
  intros H.
  change (_extract_field_data st "N" value parameters)
    with (put_positional name_fields (map strip (split ";" value))
            (fun f => f) st).
  unfold put_positional, enumerate.
  apply (positional_at name_fields _ (fun f => f) 0 st i field); [|exact H].
  rewrite map_id. unfold name_fields.
  repeat constructor; cbn [In]; intuition discriminate.
Qed.

Lemma name_parts_by_position_witness :
  dict_get "First Name"
    (fst (_extract_field_data ([("First Name", "Old")], []) "N"
            "Doe; Jane ;;Dr." []))
  = Some "Jane".
Proof.
  apply (name_parts_by_position ([("First Name", "Old")], []) "Doe; Jane ;;Dr."
           [] 1 "First Name").
  reflexivity.
Defined.

(** X13.  The parts of an ADR value go to the address fields by position,
    each under the field's name with the address type appended when a
    parameter gives one (Home or Work): part [i], stripped, is stored when
    it is not empty; an empty or missing part leaves that field as it
    was. *)
Theorem address_parts_by_position (st : parse_state) (value : string)
    (parameters : list string) (i : nat) (field : string) :
  nth_error addr_fields i = Some field ->
  let name := typed_name field (_get_address_type parameters) "Address" in
  dict_get name (fst (_extract_field_data st "ADR" value parameters))
  = match nth_error (map strip (split ";" value)) i with
    | Some part => if truthy part then Some part else dict_get name (fst st)
    | None => dict_get name (fst st)
    end.
Proof.
  intros H name.
  change (_extract_field_data st "ADR" value parameters)
    with (put_positional addr_fields (map strip (split ";" value))
            (fun f => typed_name f (_get_address_type parameters) "Address")
            st).
  unfold put_positional, enumerate. subst name.
  apply (positional_at addr_fields _
           (fun f => typed_name f (_get_address_type parameters) "Address")
           0 st i field); [|exact H].
  pose proof (address_type_cases parameters) as C. cbn [In] in C.
  destruct C as [<- | [<- | [<- | []]]]; unfold addr_fields;
    repeat constructor; cbn [In]; intuition discriminate.
Qed.

Lemma address_parts_by_position_witness :
  dict_get "City (Work)"
    (fst (_extract_field_data ([], []) "ADR" ";;1 Main St;Town;;;US"
            ["WORK"]))
  = Some "Town".
Proof.
  apply (address_parts_by_position ([], []) ";;1 Main St;Town;;;US"
           ["WORK"] 3 "City").
  reflexivity.
Defined.

(** ** E-mail values and extension properties *)





Lemma replace2_absent_second (a1 a2 : ascii) (r s : string) :
  has_char a2 s = false -> replace2 a1 a2 r s = s.
Proof.
  induction s as [|c s IH]; [reflexivity|].
  cbn [has_char]. intros H. apply orb_false_iff in H as [_ Hs].
  cbn [replace2]. destruct s as [|d s]; [reflexivity|].
  assert (Hd : Ascii.eqb d a2 = false).
  { cbn [has_char] in Hs. apply orb_false_iff in Hs as [Hd _].
    now rewrite Ascii.eqb_sym. }
  rewrite Hd, andb_false_r. now rewrite (IH Hs).
Qed.

(** X15.  An extension property [X-NAME] whose [NAME] has no hyphen is
    stored under [NAME] in title case, whatever [NAME] is: a name with the
    prefix is none of the names that are mapped in a way of their own, so
    [X-TEL] is stored under [Tel] and not as a phone number. *)
Theorem extension_property_field (st : parse_state) (name value : string)
    (parameters : list string) :
  has_char "-" name = false ->
  _extract_field_data st ("X-" ++ name) value parameters
  = put (title name) value st.
Proof.
  intros H. unfold _extract_field_data.
  cbn [append String.eqb Ascii.eqb Bool.eqb startswith andb].
  cbn [replace2 Ascii.eqb Bool.eqb andb append].
  now rewrite (replace2_absent_second "X" "-" "" _ H),
    (replace_char_absent "-" " " _ H).
Qed.

Lemma extension_property_field_witness :
  _extract_field_data ([], []) "X-ANNIVERSARY" "2001-02-03" []
  = ([("Anniversary", "2001-02-03")], ["Anniversary"])
  /\ _extract_field_data ([], []) "X-TEL" "abc" []
     = ([("Tel", "abc")], ["Tel"]).
Proof.
  split.
  - apply (extension_property_field ([], []) "ANNIVERSARY" "2001-02-03" []).
    reflexivity.
  - apply (extension_property_field ([], []) "TEL" "abc" []). reflexivity.
Defined.

(** ** Empty values *)

Lemma empty_put_value (k v : string) (st : parse_state) :
  truthy v = true ->
  empty_only_phone_or_org (fst st) ->
  empty_only_phone_or_org (fst (put k v st)).
Proof.
  intros T H g. unfold put. cbn [fst]. rewrite dict_get_set.
  destruct (String.eqb g k); [|apply H].
  intros [= E]. rewrite E in T. discriminate T.
Qed.

Lemma empty_put_key (k v : string) (st : parse_state) :
  k = "Organization" \/ startswith "Phone" k = true ->
  empty_only_phone_or_org (fst st) ->
  empty_only_phone_or_org (fst (put k v st)).
Proof.
  intros K H g. unfold put. cbn [fst]. rewrite dict_get_set.
  destruct (String.eqb_spec g k) as [-> | _]; [|apply H].
  intros _. exact K.
Qed.

Lemma empty_positional (fields parts : list string)
    (name_of : string -> string) (st : parse_state) :
  empty_only_phone_or_org (fst st) ->
  empty_only_phone_or_org (fst (put_positional fields parts name_of st)).
Proof.
  unfold put_positional. generalize (enumerate fields) as l. intros l.
  revert st. induction l as [|[i field] l IH]; intros st H; [exact H|].
  cbn [fold_left fst snd]. apply IH.
  destruct (nth_error parts i) as [part|]; [|exact H].
  destruct (truthy part) eqn:T; [now apply empty_put_value | exact H].
Qed.

Lemma truthy_lower (s : string) : truthy (lower s) = truthy s.
Proof. destruct s; reflexivity. Qed.

Lemma truthy_format_date (s : string) :
  truthy s = true -> truthy (_format_date s) = true.
Proof.
  intros T. unfold _format_date, Date.format_date.
  destruct (DateFacts.try_formats_cases false Date.formats s)
    as [[_ ->] | (pre & fmt & post & d & _ & _ & _ & ->)]; [exact T|].
  rewrite DateFacts.strftime_shape. apply truthy_app.
Qed.

Lemma phone_field_starts_with_phone (parameters : list string) :
  startswith "Phone"
    (typed_name "Phone" (_get_phone_type parameters) "Phone") = true.
Proof.
  unfold typed_name.
  destruct (String.eqb (_get_phone_type parameters) "Phone"); reflexivity.
Qed.

Lemma empty_extract (st : parse_state) (property_name value : string)
    (parameters : list string) :
  truthy value = true ->
  empty_only_phone_or_org (fst st) ->
  empty_only_phone_or_org
    (fst (_extract_field_data st property_name value parameters)).
Proof.
  intros T H. unfold _extract_field_data.
  repeat match goal with
         | |- context [if ?b then _ else _] => destruct b eqn:?
         | |- context [match ?l with [] => _ | _ :: _ => _ end] => destruct l
         end;
    cbv zeta;
    repeat first
      [ exact H
      | apply empty_positional
      | apply empty_put_value;
        [ first [ exact T | assumption
                | now rewrite truthy_lower
                | now apply truthy_format_date ] | ]
      | apply empty_put_key;
        [ first [ now left
                | right; apply phone_field_starts_with_phone ] | ] ].
Qed.

Lemma empty_process_line (st : parse_state) (line : string) :
  empty_only_phone_or_org (fst st) ->
  empty_only_phone_or_org (fst (process_line code_mapper st line)).
Proof.
  intros H. unfold process_line, line_body, code_mapper.
  destruct (negb (truthy line) || _ || _); [exact H|].
  destruct (negb (has_char ":" line)); [exact H|].
  destruct (split1 ":" line) as [|pp [|v [|x l]]]; try exact H.
  destruct (truthy (strip v)) eqn:T; cbn [negb]; [|exact H].
  destruct (has_char ";" pp); cbn [fst]; now apply empty_extract.
Qed.

Lemma empty_process_lines (lines : list string) (st : parse_state) :
  empty_only_phone_or_org (fst st) ->
  empty_only_phone_or_org (fst (process_lines code_mapper st lines)).
Proof.
  unfold process_lines. revert st.
  induction lines as [|l lines IH]; intros st H; cbn [fold_left]; [exact H|].
  apply IH. now apply empty_process_line.
Qed.

(** X16.  In the records of a parsed document an empty value stands only
    under Organization or under a phone field: every other field that is
    present has a value that is not empty. *)
Theorem empty_values_only_phone_or_org (content : string) :
  Forall empty_only_phone_or_org (contacts (parse_content content)).
Proof.
  unfold parse_content. rewrite parse_blocks_contacts. cbn [contacts app].
  apply Forall_forall. intros c Hc. apply in_flat_map in Hc as (b & _ & Hc).
  unfold record_of, parse_vcard, parse_vcard_with in Hc. cbn [fst] in Hc.
  match type of Hc with
  | context [process_lines ?m ?s ?l] =>
      pose proof (empty_process_lines l s) as E;
      destruct (process_lines m s l) as [[|kv c'] fs]
  end; cbn [fst In] in Hc; [destruct Hc|].
  destruct Hc as [<- | []]. apply E. intros k. discriminate.
Qed.

Example organization_can_be_empty :
  fst (parse_vcard []
         ("BEGIN:VCARD" ++ nl ++ "ORG:;Sales" ++ nl ++ "END:VCARD")%string)
  = Some [("Organization", ""); ("Department", "Sales")].
Proof. reflexivity. Qed.

(** ** A document without an end marker *)

Lemma contains_start (p s : string) :
  contains p s = false -> startswith p s = false.
Proof.
  destruct s; cbn [contains]; intros H; now apply orb_false_iff in H.
Qed.

Lemma contains_tail (p : string) (c : ascii) (s : string) :
  contains p (String c s) = false -> contains p s = false.
Proof.
  cbn [contains]. intros H. now apply orb_false_iff in H.
Qed.

Lemma contains_after (p a b : string) :
  contains p (a ++ b) = false -> contains p b = false.
Proof.
  induction a as [|c a IH]; cbn [append]; intros H; [exact H|].
  apply IH. now apply contains_tail in H.
Qed.

Lemma find_end_none (s : string) :
  contains "END:VCARD" (upper s) = false -> find_end s = None.
Proof.
  induction s as [|c s IH]; intros H.
  - reflexivity.
  - cbn [find_end]. rewrite (contains_start _ _ H).
    cbn [upper] in H. apply contains_after in H. now rewrite (IH H).
Qed.

Lemma findall_from_none (fuel : nat) (s : string) :
  contains "END:VCARD" (upper s) = false -> findall_from fuel s = [].
Proof.
  revert s. induction fuel as [|fuel IH]; intros s H; [reflexivity|].
  cbn [findall_from].
  assert (Next : match s with
                 | "" => []
                 | String _ s' => findall_from fuel s'
                 end = []).
  { destruct s as [|c s]; [reflexivity|]. apply IH.
    cbn [upper] in H. now apply contains_after in H. }
  destruct (startswith "BEGIN:VCARD" (upper s)); [|exact Next].
  rewrite find_end_none; [exact Next|].
  rewrite <- (take_drop 11 s), upper_app in H. now apply contains_after in H.
Qed.

(** X17.  A content in which [END:VCARD] does not occur, in any letter
    case, has no block: a card whose end marker is missing is not parsed,
    whatever lines it holds. *)
Theorem no_end_marker_no_block (content : string) :
  contains "END:VCARD" (upper content) = false ->
  findall_vcards content = []
  /\ contacts (parse_blocks (mkparser [] []) (findall_vcards content)) = [].
Proof.
  intros H. unfold findall_vcards. rewrite (findall_from_none _ _ H).
  now split.
Qed.

Lemma no_end_marker_no_block_witness :
  findall_vcards ("BEGIN:VCARD" ++ nl ++ "FN:Jane Doe" ++ nl)%string = []
  /\ contacts (parse_blocks (mkparser [] [])
                 (findall_vcards
                    ("BEGIN:VCARD" ++ nl ++ "FN:Jane Doe" ++ nl)%string))
     = [].
Proof.
  apply (no_end_marker_no_block
           ("BEGIN:VCARD" ++ nl ++ "FN:Jane Doe" ++ nl)%string).
  reflexivity.
Defined.

(** ** Order of the groups *)

(** X18.  The groups of the result stand in the order Name, Contact,
    Address, Work, Personal, Other, each at most once, the empty ones left
    out; and within a group no field is listed twice. *)
Theorem field_groups_in_fixed_order (fs : fieldset) :
  (exists keep, map fst (get_field_suggestions fs) = filter keep group_names)
  /\ NoDup (map fst (get_field_suggestions fs))
  /\ (NoDup fs ->
      forall g members,
        In (g, members) (get_field_suggestions fs) -> NoDup members).
Proof.
  assert (O : exists keep,
             map fst (get_field_suggestions fs) = filter keep group_names).
  { rewrite get_field_suggestions_shape.
    cbn [keyword_groups map app fst snd].
    set (l1 := filter _ fs). set (l2 := filter _ fs). set (l3 := filter _ fs).
    set (l4 := filter _ fs). set (l5 := filter _ fs). set (l6 := filter _ fs).
    exists (fun n =>
              nonempty_group
                (n, match dict_get n
                            [("Name Fields", l1); ("Contact Fields", l2);
                             ("Address Fields", l3); ("Work Fields", l4);
                             ("Personal Fields", l5); ("Other Fields", l6)]
                    with Some l => l | None => [] end)).
    clearbody l1 l2 l3 l4 l5 l6.
    destruct l1, l2, l3, l4, l5, l6; reflexivity. }
  split; [exact O|]. split.
  - destruct O as [keep ->]. apply NoDup_filter. unfold group_names.
    repeat constructor; cbn [In]; intuition discriminate.
  - intros ND g members H.
    apply in_get_field_suggestions in H as [_ [(k & _ & ->) | [_ ->]]];
      now apply NoDup_filter.
Qed.

(** ** Values with colons *)

(** X19.  A line is cut at its first colon only: the value of a URL line
    is all the text after [URL:], further colons included, stripped of the
    white space at its ends. *)
Theorem url_value_keeps_colons (st : parse_state) (v : string) :
  truthy (strip v) = true ->
  process_line code_mapper st ("URL:" ++ v)%string
  = put "Website" (strip v) st.
Proof.
  intros H.
  assert (Hs : split1 ":" ("URL:" ++ v)%string = ["URL"; v]) by reflexivity.
  assert (Hb : negb (truthy ("URL:" ++ v)%string)
               || startswith "BEGIN:VCARD" (upper ("URL:" ++ v)%string)
               || startswith "END:VCARD" (upper ("URL:" ++ v)%string)
               = false) by reflexivity.
  assert (Hc : has_char ":" ("URL:" ++ v)%string = true) by reflexivity.
  unfold process_line, line_body. rewrite Hb, Hc, Hs. cbv zeta.
  rewrite H. cbn [negb]. generalize (strip v). intros sv. reflexivity.
Qed.

Lemma url_value_keeps_colons_witness :
  process_line code_mapper ([], []) "URL: http://example.com:8080/a "
  = ([("Website", "http://example.com:8080/a")], ["Website"]).
Proof.
  apply (url_value_keeps_colons ([], []) " http://example.com:8080/a ").
  reflexivity.
Defined.
